(** * sewik: XML corpus statistics

    A shallow embedding of three parts of the repository:
    - [pkg/dom/stats/attributes.go]: the per-tag attribute counter;
    - [xml/print/elements.go]: the schema printer;
    - [xml/parse/parser.go]: the token-driven document builder.

    Go's [int] is taken as the 64-bit two's complement integer of the
    platforms the program is built for; it is carried as a [Z] and the
    wrap-around of [x++] is written out. *)

From Stdlib Require Import ZArith List Ascii String Lia Permutation.
From Stdlib Require Import DecimalString.
From stdpp Require Import base decidable option list strings gmap fin_maps.

Local Open Scope Z_scope.

(** ** Machine integers *)

Definition maxInt : Z := 2 ^ 63 - 1.
Definition minInt : Z := - 2 ^ 63.

(** The value an [int] holds after an arithmetic result [z]. *)
Definition wrap (z : Z) : Z := (z + 2 ^ 63) mod 2 ^ 64 - 2 ^ 63.

(** ** pkg/dom/stats/attributes.go *)

Module stats.

(** [dom.Attribute]: the fields of the pointer [Add] receives. *)
Record Attribute := mkAttribute { Name : string; Value : string }.

(** [type attributeMap map[string]attribute], with [attribute = int]. *)
Abbreviation attributeMap := (gmap string Z).

(** [attributesWithLock]. The mutex [mx] is held for the whole body of
    [Add], so calls are serialised; the state is the map [in]. *)
Record attributesWithLock := mkAttributes { in_ : attributeMap }.

Definition newAttributesWithLock : attributesWithLock :=
  {| in_ := ∅ |}.

(** [func (a *attributesWithLock) Add(n *dom.Attribute)] *)
Definition Add (n : Attribute) (a : attributesWithLock) : attributesWithLock :=
  let x :=
    match in_ a !! Name n with
    | Some x => wrap (x + 1)      (* exists: x++ *)
    | None => 1                   (* x = 1 *)
    end in
  {| in_ := <[Name n := x]> (in_ a) |}.

(** [func (a attributesWithLock) Get() attributeMap] *)
Definition Get (a : attributesWithLock) : attributeMap := in_ a.

(** [func (a attributesWithLock) Len() int] *)
Definition Len (a : attributesWithLock) : Z := Z.of_nat (size (in_ a)).

(** A sequence of [Add] calls, first call first. *)
Definition AddAll (ns : list Attribute) (a : attributesWithLock)
  : attributesWithLock :=
  fold_left (fun a n => Add n a) ns a.

(** Number of calls in [ns] made with the name [name]. *)
Definition calls_with (name : string) (ns : list Attribute) : Z :=
  Z.of_nat (length (filter (fun n => Name n = name) ns)).

(** The names added, each once, in order of first appearance. *)
Definition distinct_names (ns : list Attribute) : list string :=
  remove_dups (Name <$> ns).

(** The calls of [ns] made with the name [name], in order. *)
Definition calls_of (name : string) (ns : list Attribute) : list Attribute :=
  filter (fun n => Name n = name) ns.

End stats.

(** ** xml/print/elements.go *)

Module print.

Section Printer.

(** Modelled from the spec: [spec.Attributes], the type of the field [At]
    (section 3, "Attributes": a mapping from attribute name to a count), as
    the run at hand finds it. *)
Context {Attrs : Type}.

(** Modelled from the spec: [print.Attributes], called once per element
    ("Emit attribute annotations from stat.attributes.Get()"): the text it
    prints for the attribute statistics it is given. *)
Variable Attributes : Attrs -> string.

(** Modelled from the spec: [spec.Elements] (section 3, "Elements"): a
    mapping from tag name to an entry with the fields [Cn] (count), [At]
    (attributes) and [El] (children, again an [Elements]). The value is kept
    as the sequence of (key, entry) pairs in the order in which the [range]
    over [Get()] yields them in the run at hand: Go leaves the iteration
    order of a map unspecified, so the order is part of a run's input. *)
#[local] Unset Elimination Schemes.
Inductive Element : Type :=
  mkElement (Cn : Z) (At : Attrs) (El : list (string * Element)).
#[local] Set Elimination Schemes.

Definition Elements_t : Type := list (string * Element).

Definition Cn (elem : Element) : Z := let 'mkElement cn _ _ := elem in cn.
Definition At (elem : Element) : Attrs := let 'mkElement _ a _ := elem in a.
Definition El (elem : Element) : Elements_t := let 'mkElement _ _ el := elem in el.

(** Modelled from the spec: [Get()] hands out the map that is ranged over. *)
Definition Get (elems : Elements_t) : list (string * Element) := elems.

(** Modelled from the spec: [Len()] is the number of entries of the map
    ("If stat.children is non-empty"). *)
Definition Len (elems : Elements_t) : Z := Z.of_nat (length elems).

(** The calls that write to standard output, one constructor per call site
    of [Elements]. *)
Inductive write : Type :=
| W_open (l : nat) (k : string)     (* fmt.Printf("\n%s<%s", strings.Repeat("  ", l), k) *)
| W_count (cn : Z)                  (* fmt.Printf(` _count="%d"`, elem.Cn) *)
| W_optional                        (* fmt.Print(` _optional="true"`) *)
| W_attributes (a : Attrs)          (* Attributes(elem.At) *)
| W_gt                              (* fmt.Print(">") *)
| W_close (l : nat) (k : string)    (* fmt.Printf("\n%s</%s>", strings.Repeat("  ", l), k) *)
| W_leaf.                           (* fmt.Print(" />") *)

(** The loop body of [Elements] for one (k, elem) pair, and through the
    nested [flat_map] the loop itself. The depth [l] is a natural number:
    the recursion only ever adds one to it and [strings.Repeat] accepts no
    negative count. *)
Fixpoint element (l : nat) (c : Z) (k : string) (elem : Element) : list write :=
  W_open l k
  :: W_count (Cn elem)
  :: (if Cn elem <? c then [W_optional] else [])
  ++ W_attributes (At elem)
  :: (if Len (El elem) >? 0
      then W_gt
           :: flat_map (fun ke => element (S l) (Cn elem) (fst ke) (snd ke))
                       (Get (El elem))
           ++ [W_close l k]
      else [W_leaf]).

(** [func Elements(elems spec.Elements, l, c int)] *)
Definition Elements (elems : Elements_t) (l : nat) (c : Z) : list write :=
  flat_map (fun ke => element l c (fst ke) (snd ke)) (Get elems).

(** Induction on an entry with the hypothesis for every child entry. *)
Fixpoint Element_nested_ind (P : Element -> Prop)
  (H : forall cn a el, Forall (fun ke => P (snd ke)) el -> P (mkElement cn a el))
  (elem : Element) : P elem :=
  match elem with
  | mkElement cn a el =>
      H cn a el
        ((fix children (el : list (string * Element))
            : Forall (fun ke => P (snd ke)) el :=
            match el with
            | [] => @List.Forall_nil _ _
            | ke :: el' =>
                @List.Forall_cons _ _ ke el' (Element_nested_ind P H (snd ke)) (children el')
            end) el)
  end.

(** *** Reading the annotations back from the writes *)

(** Whether the element whose opening was just written carries the optional
    marker: the marker, when written, follows the count. *)
Fixpoint marked (ws : list write) : bool :=
  match ws with
  | W_count _ :: ws' => marked ws'
  | W_optional :: _ => true
  | _ => false
  end.

(** The elements opened by a sequence of writes, in order, each with its
    depth, its tag name and whether it is marked optional. *)
Fixpoint annotations (ws : list write) : list (nat * string * bool) :=
  match ws with
  | W_open l k :: ws' => (l, k, marked ws') :: annotations ws'
  | _ :: ws' => annotations ws'
  | [] => []
  end.

(** The optionality rule in the words of the specification (section 4.5):
    an element is optional if its count is below [parentCount], and the
    children are treated with the element's own count as [parentCount]. *)
Fixpoint expected_element (l : nat) (parentCount : Z) (k : string)
  (stat : Element) : list (nat * string * bool) :=
  (l, k, bool_decide (Cn stat < parentCount))
  :: flat_map (fun ke => expected_element (S l) (Cn stat) (fst ke) (snd ke))
              (El stat).

Definition expected (elems : Elements_t) (l : nat) (parentCount : Z)
  : list (nat * string * bool) :=
  flat_map (fun ke => expected_element l parentCount (fst ke) (snd ke)) elems.

(** *** Leaves and blocks *)

Definition is_leaf (w : write) : bool :=
  match w with W_leaf => true | _ => false end.

Definition is_gt (w : write) : bool :=
  match w with W_gt => true | _ => false end.

Definition is_close (w : write) : bool :=
  match w with W_close _ _ => true | _ => false end.

(** Number of writes of a kind in a sequence of writes. *)
Definition count (kind : write -> bool) (ws : list write) : nat :=
  length (List.filter kind ws).

(** The number of entries of a tree that have no children, *)
Fixpoint leaves_element (elem : Element) : nat :=
  match El elem with
  | [] => 1
  | el => list_sum (map (fun ke => leaves_element (snd ke)) el)
  end.

Definition leaves (elems : Elements_t) : nat :=
  list_sum (map (fun ke => leaves_element (snd ke)) elems).

(** and of those that have some. *)
Fixpoint blocks_element (elem : Element) : nat :=
  match El elem with
  | [] => 0
  | el => S (list_sum (map (fun ke => blocks_element (snd ke)) el))
  end.

Definition blocks (elems : Elements_t) : nat :=
  list_sum (map (fun ke => blocks_element (snd ke)) elems).

(** *** The same map under two iteration orders *)

(** Two values of [Elements_t] that hold the same map, at every level, and
    differ only in the order in which the entries are yielded. *)
Inductive same_element : Element -> Element -> Prop :=
| same_entry cn a el1 el2 :
    same_map el1 el2 -> same_element (mkElement cn a el1) (mkElement cn a el2)
with same_map : Elements_t -> Elements_t -> Prop :=
| same_nil : same_map [] []
| same_skip k e1 e2 m1 m2 :
    same_element e1 e2 -> same_map m1 m2 ->
    same_map ((k, e1) :: m1) ((k, e2) :: m2)
| same_swap x y m : same_map (y :: x :: m) (x :: y :: m)
| same_trans m1 m2 m3 : same_map m1 m2 -> same_map m2 m3 -> same_map m1 m3.

Scheme same_element_mut := Minimality for same_element Sort Prop
  with same_map_mut := Minimality for same_map Sort Prop.


(** *** The bytes written *)

Definition dquote : string := String "034"%char EmptyString.
Definition newline : string := String "010"%char EmptyString.

(** [strings.Repeat(s, n)] *)
Fixpoint Repeat (s : string) (n : nat) : string :=
  match n with
  | O => EmptyString
  | S n' => (s ++ Repeat s n')%string
  end.

(** The verb [%d] applied to an [int]. *)
Definition fmt_d (z : Z) : string := NilZero.string_of_int (Z.to_int z).

Definition text (w : write) : string :=
  match w with
  | W_open l k => newline ++ Repeat "  " l ++ "<" ++ k
  | W_count cn => " _count=" ++ dquote ++ fmt_d cn ++ dquote
  | W_optional => " _optional=" ++ dquote ++ "true" ++ dquote
  | W_attributes a => Attributes a
  | W_gt => ">"
  | W_close l k => newline ++ Repeat "  " l ++ "</" ++ k ++ ">"
  | W_leaf => " />"
  end%string.

(** What a run of [Elements] leaves on standard output. *)
Definition stdout (elems : Elements_t) (l : nat) (c : Z) : string :=
  String.concat EmptyString (text <$> Elements elems l c).

(** *** Reading the tree back from the writes *)

(** How much of an entry has been read since its opening. *)
Inductive pending : Type :=
| P_none
| P_open (k : string)
| P_count (k : string) (cn : Z)
| P_attributes (k : string) (cn : Z) (a : Attrs).

(** A reader of the writes of [Elements]: the entries completed at the
    current level, the entry being read, and for every open block the
    entries completed before it at its level and its own tag name, count and
    attributes. *)
Record reader : Type := mkReader {
  r_done : list (string * Element);
  r_pending : pending;
  r_blocks : list (list (string * Element) * (string * Z * Attrs))
}.

(** One write, read by a reader started at the depth [l0]: an opening has
    to come at the depth of the open blocks, the parts of an entry in their
    order, and a closing tag with the depth and the tag name of the block
    opened last. *)
Definition read_write (l0 : nat) (r : reader) (w : write) : option reader :=
  match w, r_pending r with
  | W_open l k, P_none =>
      if decide (l = (l0 + length (r_blocks r))%nat)
      then Some {| r_done := r_done r; r_pending := P_open k;
                   r_blocks := r_blocks r |}
      else None
  | W_count cn, P_open k =>
      Some {| r_done := r_done r; r_pending := P_count k cn;
              r_blocks := r_blocks r |}
  | W_optional, P_count k cn => Some r
  | W_attributes a, P_count k cn =>
      Some {| r_done := r_done r; r_pending := P_attributes k cn a;
              r_blocks := r_blocks r |}
  | W_leaf, P_attributes k cn a =>
      Some {| r_done := r_done r ++ [(k, mkElement cn a [])];
              r_pending := P_none; r_blocks := r_blocks r |}
  | W_gt, P_attributes k cn a =>
      Some {| r_done := []; r_pending := P_none;
              r_blocks := (r_done r, (k, cn, a)) :: r_blocks r |}
  | W_close l k, P_none =>
      match r_done r, r_blocks r with
      | _ :: _, (before, (k', cn, a)) :: blocks =>
          if decide (l = (l0 + length blocks)%nat /\ k = k')
          then Some {| r_done := before ++ [(k', mkElement cn a (r_done r))];
                       r_pending := P_none; r_blocks := blocks |}
          else None
      | _, _ => None
      end
  | _, _ => None
  end.

Fixpoint read_writes (l0 : nat) (r : reader) (ws : list write) : option reader :=
  match ws with
  | [] => Some r
  | w :: ws' =>
      match read_write l0 r w with
      | Some r' => read_writes l0 r' ws'
      | None => None
      end
  end.

(** The tree a sequence of writes at the depth [l0] spells out, if it is
    well formed. *)
Definition read_back (l0 : nat) (ws : list write) : option Elements_t :=
  match read_writes l0 {| r_done := []; r_pending := P_none; r_blocks := [] |} ws with
  | Some {| r_done := elems; r_pending := P_none; r_blocks := [] |} => Some elems
  | _ => None
  end.

End Printer.

Arguments Element Attrs : clear implicits.
Arguments Elements_t Attrs : clear implicits.
Arguments write Attrs : clear implicits.

End print.

(** ** xml/parse/parser.go *)

(** How a call ends: it returns, or a run-time panic unwinds it. *)
Inductive outcome (A : Type) : Type :=
| Returns (a : A)
| Panics.

Arguments Returns {A} a.
Arguments Panics {A}.

Module parse.

(** *** encoding/xml: the tokens of the decoder *)

(** [xml.Name] *)
Record Name := mkName { Space : string; Local : string }.

(** [xml.Attr] *)
Record Attr := mkAttr { AttrName : Name; AttrValue : string }.

(** [xml.Token]: the dynamic types [Decoder.Token] hands out. *)
Inductive Token : Type :=
| StartElement (name : Name) (attr : list Attr)
| EndElement (name : Name)
| CharData (data : string)
| Comment (data : string)
| ProcInst (target : string) (inst : string)
| Directive (data : string).

(** Go's [error] values. [io_EOF] is [io.EOF]; [reader_error] stands for any
    other error value of the decoder or of [os.Open]. [ParseError] and
    [StructuralError] are the two kinds the specification names (section 7);
    parser.go declares neither and constructs no value of them. *)
Inductive error : Type :=
| io_EOF
| reader_error (msg : string)
| ParseError (cause : error)
| StructuralError.

#[export] Instance error_eq_dec : EqDecision error.
Proof. solve_decision. Defined.

(** [*xml.Decoder] over one input: [Token] hands out the tokens of [tokens]
    one by one, each with a nil error, and then the nil token together with
    the error [stop] (io.EOF at the end of the input). *)
Record Decoder := mkDecoder { tokens : list Token; stop : error }.

(** *** github.com/subchen/go-xmldom: the tree that is built *)

(** [*xmldom.Node]: the position of the node in the store of the document;
    [None] is the nil pointer. *)
Abbreviation addr := nat.

(** [xmldom.Attribute] *)
Record Attribute := mkAttribute { AName : string; AValue : string }.

(** [xmldom.Node]. The field [Document] points to the one document of the
    run and is left out. *)
Record Node := mkNode {
  NName : string;
  Attributes : list Attribute;
  Children : list addr;
  Parent : option addr;
  Text : string
}.

(** [xmldom.Document], together with the nodes allocated for it. *)
Record Document := mkDocument {
  ProcInst_ : string;
  Directives : list string;
  Root : option addr;
  Nodes : list Node
}.

(** The local variables [doc] and [e] of [parse]. *)
Record state := mkState { doc : Document; e : option addr }.

(** [func stringifyProcInst(pi *xml.ProcInst) string]; the pointer is the
    address of a local and never nil. *)
Definition stringifyProcInst (target inst : string) : string :=
  ("<?" ++ target ++ " " ++ inst ++ "?>")%string.

(** [func stringifyDirective(directive *xml.Directive) string] *)
Definition stringifyDirective (directive : string) : string :=
  ("<!" ++ directive ++ ">")%string.

(** The range loop over [token.Attr]. *)
Definition copy_attributes (attr : list Attr) : list Attribute :=
  (fun a => {| AName := Local (AttrName a); AValue := AttrValue a |}) <$> attr.

(** [e.Children = append(e.Children, el)] *)
Definition append_child (el : addr) (n : Node) : Node :=
  {| NName := NName n; Attributes := Attributes n;
     Children := Children n ++ [el]; Parent := Parent n; Text := Text n |}.

(** [e.Text = s] *)
Definition set_text (s : string) (n : Node) : Node :=
  {| NName := NName n; Attributes := Attributes n;
     Children := Children n; Parent := Parent n; Text := s |}.

(** *** Nesting of the tokens *)

(** The nesting [Decoder.Token] guarantees for the tokens it hands out:
    with [open] elements open, no end tag comes while none is open. *)
Fixpoint nested (open : nat) (ts : list Token) : bool :=
  match ts with
  | [] => true
  | StartElement _ _ :: ts' => nested (S open) ts'
  | EndElement _ :: ts' =>
      match open with
      | O => false
      | S open' => nested open' ts'
      end
  | _ :: ts' => nested open ts'
  end.

(** A token that neither opens nor closes an element. *)
Definition no_element (t : Token) : bool :=
  match t with
  | StartElement _ _ | EndElement _ => false
  | _ => true
  end.

(** [ancestor nodes a n b]: [n] steps along the [Parent] pointers lead from
    [a] to [b]. *)
Inductive ancestor (nodes : list Node) : option addr -> nat -> option addr -> Prop :=
| ancestor_O a : ancestor nodes a O a
| ancestor_S p node n b :
    nodes !! p = Some node -> ancestor nodes (Parent node) n b ->
    ancestor nodes (Some p) (S n) b.

(** Every node was allocated after its parent. *)
Definition parents_below (nodes : list Node) : Prop :=
  forall q node r, nodes !! q = Some node -> Parent node = Some r -> (r < q)%nat.

(** The shape of the store while the element [top] and [n] elements below it
    are open ([top = None]: counted from the top level). *)
Record open_chain (nodes : list Node) (e : option addr) (n : nat)
  (top : option addr) : Prop := mkOpenChain {
  chain_path : ancestor nodes e n top;
  chain_below : parents_below nodes;
  chain_top : forall p, top = Some p -> is_Some (nodes !! p)
}.

(** What the tokens leave of a node: name and attributes, and the text
    [text]. *)
Definition kept_with_text (node node' : Node) (text : string) : Prop :=
  NName node' = NName node /\ Attributes node' = Attributes node
  /\ Parent node' = Parent node /\ Text node' = text.

Section Parser.

(** [bytes.TrimSpace] of the Go standard library. *)
Variable TrimSpace : string -> string.

(** The body of the [switch] for one token. *)
Definition step (st : state) (t : Token) : outcome state :=
  let d := doc st in
  match t with
  | StartElement name attr =>
      let el : addr := length (Nodes d) in
      let node :=
        {| NName := Local name; Attributes := copy_attributes attr;
           Children := []; Parent := e st; Text := EmptyString |} in
      let nodes :=
        match e st with
        | Some p => alter (append_child el) p (Nodes d ++ [node])
        | None => Nodes d ++ [node]
        end in
      Returns
        {| doc := {| ProcInst_ := ProcInst_ d; Directives := Directives d;
                     Root := match Root d with
                             | None => Some el
                             | Some r => Some r
                             end;
                     Nodes := nodes |};
           e := Some el |}
  | EndElement _ =>
      match e st with
      | None => Panics                 (* e.Parent with e == nil *)
      | Some p => Returns {| doc := d; e := Nodes d !! p ≫= Parent |}
      end
  | CharData data =>
      match e st with
      | Some p =>
          Returns
            {| doc := {| ProcInst_ := ProcInst_ d; Directives := Directives d;
                         Root := Root d;
                         Nodes := alter (set_text (TrimSpace data)) p (Nodes d) |};
               e := e st |}
      | None => Returns st
      end
  | Comment _ => Returns st
  | ProcInst target inst =>
      Returns
        {| doc := {| ProcInst_ := stringifyProcInst target inst;
                     Directives := Directives d; Root := Root d;
                     Nodes := Nodes d |};
           e := e st |}
  | Directive data =>
      Returns
        {| doc := {| ProcInst_ := ProcInst_ d;
                     Directives := Directives d ++ [stringifyDirective data];
                     Root := Root d; Nodes := Nodes d |};
           e := e st |}
  end.

(** The [for t != nil] loop. The decoder still has the tokens [ts] to hand
    out; when none is left [p.Token()] yields the nil token and [stop], and
    the loop is left with that error in [err]. *)
Fixpoint loop (ts : list Token) (stop : error) (st : state)
  : outcome (state * error) :=
  match ts with
  | [] => Returns (st, stop)
  | t :: ts' =>
      match step st t with
      | Returns st' => loop ts' stop st'
      | Panics => Panics
      end
  end.

(** [doc := new(xmldom.Document)] and [var e *xmldom.Node] *)
Definition init : state :=
  {| doc := {| ProcInst_ := EmptyString; Directives := []; Root := None;
               Nodes := [] |};
     e := None |}.

(** [func parse(r io.Reader)]: the returned pair of a [*xmldom.Document]
    and an [error], with [None] for nil. *)
Definition parse (p : Decoder) : outcome (option Document * option error) :=
  match tokens p with
  | [] => Returns (None, Some (stop p))        (* first Token: err != nil *)
  | _ :: _ =>
      match loop (tokens p) (stop p) init with
      | Panics => Panics
      | Returns (st, err) =>
          if decide (err = io_EOF)
          then Returns (Some (doc st), None)
          else Returns (None, Some err)
      end
  end.

(** The number of elements open below a given one after the token [t],
    when [open] of them were open before it. *)
Definition depth_after (open : nat) (t : Token) : nat :=
  match t with
  | StartElement _ _ => S open
  | EndElement _ => Nat.pred open
  | _ => open
  end.

(** The text of an element after the token [t], [open] elements below it
    being open: character data directly inside it replaces the text. *)
Definition text_after (open : nat) (t : Token) (text : string) : string :=
  match t, open with
  | CharData data, O => TrimSpace data
  | _, _ => text
  end.

(** The text of an element after the tokens [ts] that follow while it is
    open: the trimmed content of the last character data directly inside
    it, and [text] when there is none. *)
Fixpoint direct_text (open : nat) (ts : list Token) (text : string) : string :=
  match ts with
  | [] => text
  | t :: ts' => direct_text (depth_after open t) ts' (text_after open t text)
  end.

(** [os.Open]: the error, or the decoder reading the opened file. *)
Variable os_Open : string -> error + Decoder.

(** [func File(filename string)], with the same pair of results. *)
Definition File (filename : string) : outcome (option Document * option error) :=
  match os_Open filename with
  | inl err => Returns (None, Some err)
  | inr file => parse file
  end.

(** *** The tokens and the tree *)

(** The start tags of a token sequence, in order: local name and copied
    attributes. *)
Fixpoint start_tags (ts : list Token) : list (string * list Attribute) :=
  match ts with
  | [] => []
  | StartElement name attr :: ts' =>
      (Local name, copy_attributes attr) :: start_tags ts'
  | _ :: ts' => start_tags ts'
  end.

(** The directives of a token sequence, in order, as they are kept. *)
Fixpoint directives (ts : list Token) : list string :=
  match ts with
  | [] => []
  | Directive data :: ts' => stringifyDirective data :: directives ts'
  | _ :: ts' => directives ts'
  end.

(** The last processing instruction of a token sequence, as it is kept, and
    [text] when there is none. *)
Fixpoint last_ProcInst (ts : list Token) (text : string) : string :=
  match ts with
  | [] => text
  | ProcInst target inst :: ts' =>
      last_ProcInst ts' (stringifyProcInst target inst)
  | _ :: ts' => last_ProcInst ts' text
  end.

(** For every start tag of a token sequence, in order, the number of the
    start tag of the element that encloses it ([None] at the top level).
    [next] start tags came before, and [stack] numbers the start tags of the
    elements that are open, the innermost first. *)
Fixpoint enclosing (next : nat) (stack : list nat) (ts : list Token)
  : list (option nat) :=
  match ts with
  | [] => []
  | StartElement _ _ :: ts' =>
      head stack :: enclosing (S next) (next :: stack) ts'
  | EndElement _ :: ts' => enclosing next (tail stack) ts'
  | _ :: ts' => enclosing next stack ts'
  end.

(** The number of elements open after the tokens [ts], [open] being open
    before them. *)
Fixpoint depth_end (open : nat) (ts : list Token) : nat :=
  match ts with
  | [] => open
  | t :: ts' => depth_end (depth_after open t) ts'
  end.

(** The open elements, the innermost first: the current node and the nodes
    above it along the [Parent] pointers. *)
Inductive open_list (nodes : list Node) : option addr -> list addr -> Prop :=
| open_list_nil : open_list nodes None []
| open_list_cons p node l :
    nodes !! p = Some node -> open_list nodes (Parent node) l ->
    open_list nodes (Some p) (p :: l).

(** [x] is the current node or one of the nodes above it. *)
Definition is_open (nodes : list Node) (e : option addr) (x : addr) : Prop :=
  exists n, ancestor nodes e n (Some x).

(** The [Parent] pointers and the [Children] lists of a store say the same:
    a node is listed, once, among the children of its parent and of no
    other node, and only nodes of the store are listed. *)
Record linked (nodes : list Node) : Prop := mkLinked {
  linked_up : forall q nq p,
    nodes !! q = Some nq -> Parent nq = Some p ->
    exists np, nodes !! p = Some np /\ q ∈ Children np;
  linked_down : forall p np q,
    nodes !! p = Some np -> q ∈ Children np ->
    exists nq, nodes !! q = Some nq /\ Parent nq = Some p;
  linked_once : forall p np, nodes !! p = Some np -> NoDup (Children np)
}.

(** The name and the attributes of a node. *)
Definition tag_of (n : Node) : string * list Attribute :=
  (NName n, Attributes n).

(** The open elements after the token [t], [next] start tags having come
    before it. *)
Definition stack_after (next : nat) (stack : list nat) (t : Token) : list nat :=
  match t with
  | StartElement _ _ => next :: stack
  | EndElement _ => tail stack
  | _ => stack
  end.

(** The children of every node are listed in the order of their start
    tags. *)
Definition in_document_order (nodes : list Node) : Prop :=
  forall p np i j qi qj,
    nodes !! p = Some np ->
    Children np !! i = Some qi -> Children np !! j = Some qj ->
    (i < j)%nat -> (qi < qj)%nat.

(** A token that is not a comment. *)
Definition not_comment (t : Token) : bool :=
  match t with
  | Comment _ => false
  | _ => true
  end.

End Parser.

(** The white space of [bytes.TrimSpace] among the bytes below 0x80. *)
Definition asciiSpace (c : ascii) : bool :=
  match nat_of_ascii c with
  | 9 | 10 | 11 | 12 | 13 | 32 => true
  | _ => false
  end%nat.

Fixpoint trim_left (s : string) : string :=
  match s with
  | String c s' => if asciiSpace c then trim_left s' else s
  | EmptyString => EmptyString
  end.

Fixpoint trim_right (s : string) : string :=
  match s with
  | String c s' =>
      match trim_right s' with
      | EmptyString => if asciiSpace c then EmptyString else String c EmptyString
      | r => String c r
      end
  | EmptyString => EmptyString
  end.

(** [bytes.TrimSpace] on input made of bytes below 0x80. *)
Definition TrimSpaceASCII (s : string) : string := trim_right (trim_left s).

(** The names of the tags [<a>] and [<b>], for the runs below. *)
Definition a_tag : Name := {| Space := EmptyString; Local := "a" |}.
Definition b_tag : Name := {| Space := EmptyString; Local := "b" |}.

(** A small input for the runs below: a processing instruction, a directive,
    the element [a] with the attribute [id], character data, the child [b]
    and a comment after the end tag of [a]. *)
Definition sample_input : Decoder :=
  {| tokens :=
       [ProcInst "xml" "version=1.0"; Directive "DOCTYPE a";
        StartElement a_tag
          [{| AttrName := {| Space := EmptyString; Local := "id" |};
              AttrValue := "1" |}];
        CharData " x "; StartElement b_tag []; CharData "y"; EndElement b_tag;
        CharData " z "; EndElement a_tag; Comment "end"];
     stop := io_EOF |}.

(** The document [parse] returns for it. *)
Definition sample_document : Document :=
  Eval vm_compute in
    match parse TrimSpaceASCII sample_input with
    | Returns (Some d, _) => d
    | _ => doc init
    end.

(** The state after the start tag of [a] and the whole element [b], and the
    state after the rest of [a]. *)
Definition sample_state_b_closed : state :=
  Eval vm_compute in
    match loop TrimSpaceASCII
            [StartElement a_tag []; StartElement b_tag []; EndElement b_tag]
            io_EOF init with
    | Returns (st, _) => st
    | Panics => init
    end.

Definition sample_state_a_closed : state :=
  Eval vm_compute in
    match loop TrimSpaceASCII [CharData " z "; EndElement a_tag] io_EOF
            sample_state_b_closed with
    | Returns (st, _) => st
    | Panics => init
    end.

End parse.

(** * Properties *)

(** ** The attribute counter *)

Section AttributeCounter.

Import stats.

Lemma wrap_id (z : Z) : minInt <= z <= maxInt -> wrap z = z.
Proof.
  unfold wrap, minInt, maxInt. intros Hz.
  rewrite Z.mod_small by lia. lia.
Qed.

Lemma calls_with_nonneg name ns : 0 <= calls_with name ns.
Proof. unfold calls_with. lia. Qed.

Lemma calls_with_cons name n ns :
  calls_with name (n :: ns) =
  (if decide (Name n = name) then 1 else 0) + calls_with name ns.
Proof.
  unfold calls_with. rewrite filter_cons.
  destruct (decide (Name n = name)); simpl; lia.
Qed.

Lemma calls_with_le_length name ns :
  calls_with name ns <= Z.of_nat (length ns).
Proof.
  unfold calls_with. pose proof (length_filter (fun n => Name n = name) ns). lia.
Qed.

Lemma calls_with_zero name ns :
  calls_with name ns = 0 <-> name ∉ Name <$> ns.
Proof.
  induction ns as [|n ns IH].
  - split; [intros _; apply not_elem_of_nil | reflexivity].
  - rewrite calls_with_cons, fmap_cons, not_elem_of_cons.
    pose proof (calls_with_nonneg name ns).
    destruct (decide (Name n = name)) as [Heq|Hne].
    + split; [lia | intros [Hn _]; congruence].
    + rewrite Z.add_0_l, IH. split; [intros; split; congruence | tauto].
Qed.

(** One [Add]: a name not yet in the map enters it with the count 1. *)
Lemma Add_fresh n a :
  Get a !! Name n = None -> Get (Add n a) !! Name n = Some 1.
Proof.
  unfold Get, Add. intros ->. simpl. apply lookup_insert_eq.
Qed.

(** One [Add]: a count below the largest [int] goes up by one. *)
Lemma Add_seen n a x :
  Get a !! Name n = Some x -> minInt <= x < maxInt ->
  Get (Add n a) !! Name n = Some (x + 1).
Proof.
  unfold Get, Add. intros -> Hx. simpl.
  rewrite lookup_insert_eq, wrap_id; [reflexivity | lia].
Qed.

(** One [Add] leaves the counts of the other names alone. *)
Lemma Add_other n a name :
  Name n <> name -> Get (Add n a) !! name = Get a !! name.
Proof.
  unfold Get, Add. intros Hne. simpl. by rewrite lookup_insert_ne.
Qed.

(** The map after a sequence of calls, from any map whose counts are
    positive and leave room for the calls to come. *)
Lemma AddAll_lookup ns : forall a name,
  (forall nm x, Get a !! nm = Some x -> 0 < x) ->
  (forall nm, default 0 (Get a !! nm) + calls_with nm ns <= maxInt) ->
  Get (AddAll ns a) !! name =
  match Get a !! name with
  | Some x => Some (x + calls_with name ns)
  | None => if decide (calls_with name ns = 0) then None
            else Some (calls_with name ns)
  end.
Proof.
  induction ns as [|n ns IH]; intros a name Hpos Hroom.
  - simpl. destruct (Get a !! name); [f_equal; unfold calls_with; simpl; lia | reflexivity].
  - change (AddAll (n :: ns) a) with (AddAll ns (Add n a)).
    pose proof (calls_with_nonneg (Name n) ns) as Hge.
    pose proof (Hroom (Name n)) as Hn.
    rewrite calls_with_cons, decide_True in Hn by reflexivity.
    rewrite IH.
    + rewrite (calls_with_cons name n ns).
      destruct (decide (Name n = name)) as [<-|Hne].
      * destruct (Get a !! Name n) as [x|] eqn:Hx; simpl in Hn.
        -- pose proof (Hpos _ _ Hx).
           rewrite (Add_seen n a x Hx) by (unfold minInt; lia).
           f_equal. lia.
        -- rewrite (Add_fresh n a Hx), decide_False by lia. reflexivity.
      * rewrite (Add_other n a name Hne), Z.add_0_l. reflexivity.
    + intros nm x Hnm.
      destruct (decide (Name n = nm)) as [<-|Hne].
      * destruct (Get a !! Name n) as [y|] eqn:Hy; simpl in Hn.
        -- pose proof (Hpos _ _ Hy).
           rewrite (Add_seen n a y Hy) in Hnm by (unfold minInt; lia).
           inversion Hnm; subst. lia.
        -- rewrite (Add_fresh n a Hy) in Hnm. inversion Hnm; subst. lia.
      * rewrite (Add_other n a nm Hne) in Hnm. eauto.
    + intros nm. pose proof (Hroom nm) as Hr.
      rewrite calls_with_cons in Hr.
      destruct (decide (Name n = nm)) as [<-|Hne].
      * destruct (Get a !! Name n) as [y|] eqn:Hy; simpl in Hn.
        -- pose proof (Hpos _ _ Hy).
           rewrite (Add_seen n a y Hy) by (unfold minInt; lia). simpl. lia.
        -- rewrite (Add_fresh n a Hy). simpl. lia.
      * rewrite (Add_other n a nm Hne). lia.
Qed.

Lemma AddAll_app ns1 ns2 a : AddAll (ns1 ++ ns2) a = AddAll ns2 (AddAll ns1 a).
Proof. unfold AddAll. apply fold_left_app. Qed.

Lemma AddAll_new_lookup ns name :
  Z.of_nat (length ns) <= maxInt ->
  Get (AddAll ns newAttributesWithLock) !! name =
  if decide (name ∈ Name <$> ns) then Some (calls_with name ns) else None.
Proof.
  intros Hlen. rewrite AddAll_lookup.
  - change (Get newAttributesWithLock) with (∅ : gmap string Z).
    rewrite lookup_empty.
    pose proof (calls_with_zero name ns) as Hz.
    destruct (decide (calls_with name ns = 0)) as [H0|H0];
      destruct (decide (name ∈ Name <$> ns)) as [Hin|Hin]; tauto.
  - intros nm x. change (Get newAttributesWithLock) with (∅ : gmap string Z).
    rewrite lookup_empty. discriminate.
  - intros nm. change (Get newAttributesWithLock) with (∅ : gmap string Z).
    rewrite lookup_empty. simpl.
    pose proof (calls_with_le_length nm ns). lia.
Qed.

(** C2. After any sequence [ns] of [Add] calls on a new counter (fewer calls
    than the largest [int]), [Get()] maps every name that was added to the
    number of calls made with it and holds no other name; the call that
    follows the calls [ns1] finds its name at one more than the number of
    earlier calls with that name (so at 1 when it is the first); and [Len()]
    is the number of distinct names added. *)
Theorem Attributes_Add_counts (ns : list Attribute) :
  Z.of_nat (length ns) <= maxInt ->
  (forall name,
     Get (AddAll ns newAttributesWithLock) !! name =
     if decide (name ∈ Name <$> ns) then Some (calls_with name ns) else None)
  /\ (forall ns1 n ns2, ns = ns1 ++ n :: ns2 ->
       Get (Add n (AddAll ns1 newAttributesWithLock)) !! Name n =
       Some (calls_with (Name n) ns1 + 1))
  /\ Len (AddAll ns newAttributesWithLock) =
     Z.of_nat (length (distinct_names ns)).
Proof.
  intros Hlen. split; [|split].
  - intros name. by apply AddAll_new_lookup.
  - intros ns1 n ns2 ->. rewrite length_app in Hlen. simpl in Hlen.
    change (Add n (AddAll ns1 newAttributesWithLock))
      with (AddAll [n] (AddAll ns1 newAttributesWithLock)).
    rewrite <- AddAll_app, AddAll_new_lookup
      by (rewrite length_app; simpl; lia).
    rewrite decide_True by (rewrite fmap_app; set_solver).
    f_equal. unfold calls_with. rewrite filter_app, length_app.
    rewrite filter_cons, decide_True by reflexivity. simpl. lia.
  - unfold Len, distinct_names. f_equal.
    rewrite <- size_dom.
    assert (dom (in_ (AddAll ns newAttributesWithLock))
            = list_to_set (remove_dups (Name <$> ns))) as ->.
    { apply set_eq. intros name.
      rewrite elem_of_dom, elem_of_list_to_set, elem_of_remove_dups.
      change (in_ ?a) with (Get a). rewrite AddAll_new_lookup by exact Hlen.
      destruct (decide (name ∈ Name <$> ns)) as [Hin|Hin].
      - split; [done | eauto].
      - split; [intros [? ?]; discriminate | done]. }
    apply size_list_to_set, NoDup_remove_dups.
Qed.

(** The attribute [id] on 5 of the 10 occurrences of a tag, next to an
    attribute [ref] on all of them. *)
Lemma Attributes_Add_counts_witness :
  let x := {| Name := "id"; Value := "1" |} in
  let r := {| Name := "ref"; Value := "2" |} in
  let ns := [x; r; r; x; r; r; x; r; x; r; r; x; r; r; r] in
  Get (AddAll ns newAttributesWithLock) !! "id"%string = Some 5
  /\ Get (AddAll ns newAttributesWithLock) !! "ref"%string = Some 10
  /\ Len (AddAll ns newAttributesWithLock) = 2.
Proof.
  intros x r ns.
  assert (Z.of_nat (length ns) <= maxInt) as Hlen by (vm_compute; discriminate).
  destruct (Attributes_Add_counts ns Hlen) as (Hget & _ & Hlen').
  split; [|split].
  - rewrite Hget. reflexivity.
  - rewrite Hget. reflexivity.
  - rewrite Hlen'. reflexivity.
Defined.

End AttributeCounter.

(** ** The schema printer *)

Section SchemaPrinter.

Import print.

Context {Attrs : Type}.

Implicit Types (elem : Element Attrs) (elems : Elements_t Attrs).
Implicit Types (ws rest : list (write Attrs)).

Lemma Elements_cons k elem elems l c :
  Elements ((k, elem) :: elems) l c = element l c k elem ++ Elements elems l c.
Proof. reflexivity. Qed.

Lemma Elements_app elems1 elems2 l c :
  Elements (elems1 ++ elems2) l c = Elements elems1 l c ++ Elements elems2 l c.
Proof. unfold Elements, Get. apply flat_map_app. Qed.

(** The loop body, with the recursive call spelled as [Elements]. *)
Lemma element_unfold l c k elem :
  element l c k elem =
  W_open l k :: W_count (Cn elem)
  :: (if Cn elem <? c then [W_optional] else [])
  ++ W_attributes (At elem)
  :: (if Len (El elem) >? 0
      then W_gt :: Elements (El elem) (S l) (Cn elem) ++ [W_close l k]
      else [W_leaf]).
Proof. destruct elem; reflexivity. Qed.

Lemma Len_pos_iff elems : (Len elems >? 0) = true <-> elems <> [].
Proof.
  unfold Len. destruct elems; simpl.
  - split; [discriminate | congruence].
  - split; [discriminate | intros _; apply Z.gtb_lt; lia].
Qed.

Lemma annotations_element elem : forall l c k rest,
  annotations (element l c k elem ++ rest) =
  expected_element l c k elem ++ annotations rest.
Proof.
  induction elem as [cn a el IH] using Element_nested_ind.
  intros l c k rest. rewrite element_unfold.
  change (El (mkElement cn a el)) with el.
  change (Cn (mkElement cn a el)) with cn.
  change (At (mkElement cn a el)) with a.
  assert (annotations (Elements el (S l) cn ++ W_close l k :: rest) =
          expected el (S l) cn ++ annotations rest) as Hchildren.
  { clear -IH. induction IH as [|[k' e'] el Hhd Htl IHel]; [reflexivity|].
    rewrite Elements_cons, <- app_assoc. simpl in Hhd. rewrite Hhd.
    unfold expected. simpl. rewrite <- app_assoc. f_equal. exact IHel. }
  assert (annotations ((if Len el >? 0
                        then W_gt :: Elements el (S l) cn ++ [W_close l k]
                        else [W_leaf]) ++ rest) =
          expected el (S l) cn ++ annotations rest) as Htail.
  { destruct el as [|ke el]; [reflexivity|].
    replace (Len (ke :: el) >? 0) with true
      by (symmetry; apply Len_pos_iff; discriminate).
    simpl app. rewrite <- app_assoc. exact Hchildren. }
  simpl expected_element. fold (expected el (S l) cn).
  destruct (Z.ltb_spec cn c) as [Hlt|Hge].
  - rewrite bool_decide_eq_true_2 by exact Hlt. simpl. f_equal. exact Htail.
  - rewrite bool_decide_eq_false_2 by lia. simpl. f_equal. exact Htail.
Qed.


(** C1. Read back from the writes of [Elements elems l c], the elements
    opened and their optional markers are those of the rule of the
    specification: an entry rendered with the enclosing count [parentCount]
    is marked optional exactly when its count is below [parentCount], the
    entries of the root call being rendered with [c] and the children of an
    entry with that entry's own count. *)
Theorem Elements_optional_rule elems l c :
  annotations (Elements elems l c) = expected elems l c.
Proof.
  induction elems as [|[k elem] elems IH]; [reflexivity|].
  rewrite Elements_cons, annotations_element, IH. reflexivity.
Qed.

Lemma count_app kind ws1 ws2 :
  count kind (ws1 ++ ws2) = (count kind ws1 + count kind ws2)%nat.
Proof. unfold count. by rewrite List.filter_app, length_app. Qed.

Lemma count_Elements_cons kind k elem elems l c :
  count kind (Elements ((k, elem) :: elems) l c) =
  (count kind (element l c k elem) + count kind (Elements elems l c))%nat.
Proof. rewrite Elements_cons. apply count_app. Qed.

Lemma count_element elem : forall l c k,
  count is_leaf (element l c k elem) = leaves_element elem
  /\ count is_gt (element l c k elem) = blocks_element elem
  /\ count is_close (element l c k elem) = blocks_element elem.
Proof.
  induction elem as [cn a el IH] using Element_nested_ind.
  intros l c k. rewrite element_unfold.
  change (El (mkElement cn a el)) with el.
  change (Cn (mkElement cn a el)) with cn.
  change (At (mkElement cn a el)) with a.
  assert (count is_leaf (Elements el (S l) cn) = leaves el
          /\ count is_gt (Elements el (S l) cn) = blocks el
          /\ count is_close (Elements el (S l) cn) = blocks el) as (Hl & Hg & Hc).
  { clear -IH. induction IH as [|[k' e'] el Hhd Htl IHel]; [by repeat split|].
    rewrite !count_Elements_cons. simpl in Hhd.
    destruct (Hhd (S l) cn k') as (-> & -> & ->).
    destruct IHel as (-> & -> & ->). by repeat split. }
  destruct el as [|ke el].
  { destruct (cn <? c); by repeat split. }
  replace (Len (ke :: el) >? 0) with true
    by (symmetry; apply Len_pos_iff; discriminate).
  change (leaves_element (mkElement cn a (ke :: el))) with (leaves (ke :: el)).
  change (blocks_element (mkElement cn a (ke :: el))) with (S (blocks (ke :: el))).
  generalize dependent (Elements (ke :: el) (S l) cn).
  generalize (leaves (ke :: el)) (blocks (ke :: el)). clear.
  intros nl nb ws Hl Hg Hc. unfold count in *.
  destruct (cn <? c); simpl; rewrite !List.filter_app, !length_app; simpl;
    repeat split; lia.
Qed.

(** C9. An entry whose children map is empty is written as its opening, its
    annotations and the one leaf marker; the opening bracket of a child block
    appears among the writes of an entry only if its children map is not
    empty; and over a whole run there is one leaf marker per entry without
    children, and one opening bracket and one closing tag per entry with
    children. *)
Theorem Elements_leaf_or_block :
  (forall l c k elem, Len (El elem) = 0 ->
     element l c k elem =
     W_open l k :: W_count (Cn elem)
     :: (if Cn elem <? c then [W_optional] else [])
     ++ [W_attributes (At elem); W_leaf])
  /\ (forall l c k elem, In W_gt (element l c k elem) -> Len (El elem) > 0)
  /\ (forall elems l c,
        count is_leaf (Elements elems l c) = leaves elems
        /\ count is_gt (Elements elems l c) = blocks elems
        /\ count is_close (Elements elems l c) = blocks elems).
Proof.
  assert (forall l c k elem, Len (El elem) = 0 ->
            element l c k elem =
            W_open l k :: W_count (Cn elem)
            :: (if Cn elem <? c then [W_optional] else [])
            ++ [W_attributes (At elem); W_leaf]) as Hleaf.
  { intros l c k elem Hlen. rewrite element_unfold, Hlen. reflexivity. }
  split; [exact Hleaf|]. split.
  - intros l c k elem Hin.
    destruct (Z.eq_dec (Len (El elem)) 0) as [H0|H0]; [|unfold Len in *; lia].
    rewrite (Hleaf l c k elem H0) in Hin.
    destruct (Cn elem <? c); simpl in Hin; intuition discriminate.
  - induction elems as [|[k elem] elems IH]; intros l c; [by repeat split|].
    rewrite !count_Elements_cons.
    destruct (count_element elem l c k) as (-> & -> & ->).
    destruct (IH l c) as (-> & -> & ->). by repeat split.
Qed.








End SchemaPrinter.


(** The entry [a], seen 10 times, with the children [b], seen 7 times, and
    [d], seen 10 times; 10 roots were processed. *)
Example Elements_ten_of_ten_seven_of_ten :
  let a := print.mkElement 10 tt
             [("b"%string, print.mkElement 7 tt []);
              ("d"%string, print.mkElement 10 tt [])] in
  print.annotations (print.Elements [("a"%string, a)] 0 10)
  = [(0%nat, "a"%string, false); (1%nat, "b"%string, true);
     (1%nat, "d"%string, false)].
Proof. reflexivity. Qed.

Example Elements_stdout_sample :
  let a := print.mkElement 10 tt [("b"%string, print.mkElement 7 tt [])] in
  let q := print.dquote in
  let nl := print.newline in
  print.stdout (fun _ => EmptyString) [("a"%string, a)] 0 10
  = (nl ++ "<a _count=" ++ q ++ "10" ++ q ++ ">"
     ++ nl ++ "  <b _count=" ++ q ++ "7" ++ q ++ " _optional=" ++ q ++ "true" ++ q
     ++ " />"
     ++ nl ++ "</a>")%string.
Proof. reflexivity. Qed.

(** The childless entry [b], seen 7 times under a parent seen 10 times. *)
Lemma Elements_leaf_or_block_witness :
  print.element 1 10 "b" (print.mkElement 7 tt [])
  = [print.W_open 1 "b"; print.W_count 7; print.W_optional;
     print.W_attributes tt; print.W_leaf].
Proof.
  apply (proj1 (@Elements_leaf_or_block unit) 1%nat 10 "b"%string
           (print.mkElement 7 tt [])).
  reflexivity.
Defined.


(** ** The parser *)

Section ParserFacts.

Import parse.

Local Open Scope nat_scope.

Variable TrimSpace : string -> string.

Implicit Types (st : state) (t : Token) (ts : list Token) (nodes : list Node).

Lemma loop_app ts1 ts2 stop st :
  loop TrimSpace (ts1 ++ ts2) stop st =
  match loop TrimSpace ts1 stop st with
  | Returns (st', _) => loop TrimSpace ts2 stop st'
  | Panics => Panics
  end.
Proof.
  revert st. induction ts1 as [|t ts1 IH]; intros st; [reflexivity|].
  simpl. destruct (step TrimSpace st t); [apply IH | reflexivity].
Qed.

Lemma loop_cons t ts stop st :
  loop TrimSpace (t :: ts) stop st =
  match step TrimSpace st t with
  | Returns st' => loop TrimSpace ts stop st'
  | Panics => Panics
  end.
Proof. reflexivity. Qed.

(** *** Tokens outside of any element *)

Lemma loop_no_element ts stop st :
  forallb no_element ts = true -> e st = None ->
  exists st', loop TrimSpace ts stop st = Returns (st', stop)
    /\ e st' = None /\ Root (doc st') = Root (doc st)
    /\ Nodes (doc st') = Nodes (doc st).
Proof.
  revert st. induction ts as [|t ts IH]; intros st Hts He.
  - exists st. by repeat split.
  - simpl in Hts. apply andb_true_iff in Hts as [Ht Hts].
    destruct t; try discriminate; simpl; rewrite ?He;
      (edestruct IH as (st' & -> & ? & ? & ?); [exact Hts | | eauto]);
      try exact He; reflexivity.
Qed.

(** *** The chain of open elements *)

Lemma ancestor_mono nodes nodes' a n b :
  (forall q node, nodes !! q = Some node ->
     exists node', nodes' !! q = Some node' /\ Parent node' = Parent node) ->
  ancestor nodes a n b -> ancestor nodes' a n b.
Proof.
  intros Hmono. induction 1 as [a|p node n b Hp _ IH]; [constructor|].
  destruct (Hmono p node Hp) as (node' & Hp' & Hpar).
  econstructor; [exact Hp' | by rewrite Hpar].
Qed.

Lemma ancestor_lt nodes p n p0 :
  parents_below nodes -> ancestor nodes (Some p) (S n) (Some p0) -> p0 < p.
Proof.
  intros Hbelow. revert p. induction n as [|n IH]; intros p Hanc.
  - inversion Hanc as [|? node ? ? Hp Hrest]; subst.
    inversion Hrest; subst. eauto.
  - inversion Hanc as [|? node ? ? Hp Hrest]; subst.
    inversion Hrest as [|q ? ? ? Hq ?]; subst.
    assert (q < p) by eauto. assert (p0 < q) by (apply IH; congruence). lia.
Qed.

Lemma open_chain_e_valid nodes e n top p :
  open_chain nodes e n top -> e = Some p -> is_Some (nodes !! p).
Proof.
  intros [Hpath _ Htop] ->. inversion Hpath; subst; eauto.
Qed.

Lemma lookup_alter_Parent (f : Node -> Node) nodes p q node :
  (forall n, Parent (f n) = Parent n) ->
  nodes !! q = Some node ->
  exists node', alter f p nodes !! q = Some node' /\ Parent node' = Parent node.
Proof.
  intros Hf Hq. rewrite list_lookup_alter. destruct (decide (p = q)) as [->|].
  - rewrite Hq. simpl. eauto.
  - eauto.
Qed.

Lemma open_chain_alter (f : Node -> Node) nodes e n top p :
  (forall n, Parent (f n) = Parent n) ->
  open_chain nodes e n top -> open_chain (alter f p nodes) e n top.
Proof.
  intros Hf [Hpath Hbelow Htop]. split.
  - eapply ancestor_mono; [|exact Hpath].
    intros q node Hq. by apply lookup_alter_Parent.
  - intros q node r Hq Hr. rewrite list_lookup_alter in Hq.
    destruct (decide (p = q)) as [->|]; [|eauto].
    destruct (nodes !! q) as [node0|] eqn:Hq0; [|discriminate].
    simpl in Hq. inversion Hq; subst. rewrite Hf in Hr. eauto.
  - intros p0 Hp0. destruct (Htop p0 Hp0) as [node Hnode].
    destruct (lookup_alter_Parent f nodes p p0 node Hf Hnode) as (? & ? & _).
    eauto.
Qed.

Lemma open_chain_push nodes e n top node :
  Parent node = e -> open_chain nodes e n top ->
  open_chain (nodes ++ [node]) (Some (length nodes)) (S n) top.
Proof.
  intros Hpar Hchain. pose proof Hchain as [Hpath Hbelow Htop]. split.
  - econstructor; [by apply list_lookup_middle|]. rewrite Hpar.
    eapply ancestor_mono; [|exact Hpath].
    intros q node0 Hq. exists node0. split; [by apply lookup_app_l_Some | done].
  - intros q node0 r Hq Hr.
    destruct (decide (q < length nodes)) as [Hlt|Hge].
    + rewrite lookup_app_l in Hq by exact Hlt. eauto.
    + assert (q = length nodes) as ->.
      { apply lookup_lt_Some in Hq. rewrite length_app in Hq. simpl in Hq. lia. }
      rewrite list_lookup_middle in Hq by reflexivity. inversion Hq; subst.
      destruct (open_chain_e_valid _ _ _ _ r Hchain Hr) as [? Hv].
      by apply lookup_lt_Some in Hv.
  - intros p0 Hp0. destruct (Htop p0 Hp0) as [node0 Hnode0].
    exists node0. by apply lookup_app_l_Some.
Qed.

Lemma Parent_append_child el n : Parent (append_child el n) = Parent n.
Proof. reflexivity. Qed.

Lemma Parent_set_text s n : Parent (set_text s n) = Parent n.
Proof. reflexivity. Qed.


Lemma nested_cons n t ts :
  nested n (t :: ts) = true ->
  (forall name, t = EndElement name -> n <> 0)
  /\ nested (depth_after n t) ts = true.
Proof.
  destruct t; simpl; try (intros ->; split; [discriminate | reflexivity]).
  destruct n; [discriminate|]. simpl. intros ->. split; [intros; lia | reflexivity].
Qed.

(** One token, with the chain of open elements in place. *)
Lemma step_open_chain st t n top :
  open_chain (Nodes (doc st)) (e st) n top ->
  (forall name, t = EndElement name -> n <> 0) ->
  exists st', step TrimSpace st t = Returns st'
    /\ open_chain (Nodes (doc st')) (e st') (depth_after n t) top
    /\ forall p0 node, top = Some p0 ->
         Nodes (doc st) !! p0 = Some node ->
         exists node', Nodes (doc st') !! p0 = Some node'
           /\ kept_with_text node node' (text_after TrimSpace n t (Text node)).
Proof.
  intros Hchain Hend. destruct st as [d e0]. simpl in *.
  destruct t as [name attr|name|data|data|target inst|data]; simpl.
  - (* StartElement *)
    eexists. split; [reflexivity|]. simpl.
    set (node := {| NName := Local name; Attributes := copy_attributes attr;
                    Children := []; Parent := e0; Text := EmptyString |}).
    assert (open_chain (Nodes d ++ [node]) (Some (length (Nodes d))) (S n) top)
      as Hpush by (apply (open_chain_push _ e0); [reflexivity | exact Hchain]).
    split.
    + destruct e0 as [p|]; [|exact Hpush].
      apply open_chain_alter; [apply Parent_append_child | exact Hpush].
    + intros p0 node0 -> Hp0.
      pose proof (lookup_app_l_Some _ [node] _ _ Hp0) as Hp0'.
      destruct e0 as [p|]; [|exists node0; by repeat split].
      rewrite list_lookup_alter.
      destruct (decide (p = p0)) as [->|]; rewrite Hp0'; simpl; eexists;
        by repeat split.
  - (* EndElement *)
    destruct n as [|m]; [by destruct (Hend name)|].
    pose proof Hchain as [Hpath Hbelow Htop].
    inversion Hpath as [|p node ? ? Hp Hrest]; subst.
    eexists. split; [reflexivity|]. simpl. rewrite Hp. simpl.
    split; [by split|]. intros p0 node0 _ Hp0. exists node0. by repeat split.
  - (* CharData *)
    destruct e0 as [p|].
    + eexists. split; [reflexivity|]. simpl. split.
      * apply open_chain_alter; [apply Parent_set_text | exact Hchain].
      * intros p0 node0 -> Hp0. destruct Hchain as [Hpath Hbelow Htop].
        destruct n as [|m].
        -- inversion Hpath; subst. rewrite list_lookup_alter_eq, Hp0.
           eexists. by repeat split.
        -- apply ancestor_lt in Hpath; [|exact Hbelow].
           rewrite list_lookup_alter_ne by lia. exists node0. by repeat split.
    + exists {| doc := d; e := None |}. split; [reflexivity|]. split; [exact Hchain|].
      intros p0 node0 -> _. destruct Hchain as [Hpath _ _].
      inversion Hpath.
  - eexists. split; [reflexivity|]. split; [exact Hchain|].
    intros p0 node0 _ Hp0. exists node0. by repeat split.
  - eexists. split; [reflexivity|]. split; [exact Hchain|].
    intros p0 node0 _ Hp0. exists node0. by repeat split.
  - eexists. split; [reflexivity|]. split; [exact Hchain|].
    intros p0 node0 _ Hp0. exists node0. by repeat split.
Qed.

(** A nested run of tokens does not panic, keeps the chain of open elements
    and leaves in [top] the text of the last character data directly inside
    it. *)
Lemma loop_open_chain ts : forall stop st n top,
  open_chain (Nodes (doc st)) (e st) n top ->
  nested n ts = true ->
  exists st', loop TrimSpace ts stop st = Returns (st', stop)
    /\ (exists n', open_chain (Nodes (doc st')) (e st') n' top)
    /\ forall p0 node, top = Some p0 ->
         Nodes (doc st) !! p0 = Some node ->
         exists node', Nodes (doc st') !! p0 = Some node'
           /\ kept_with_text node node' (direct_text TrimSpace n ts (Text node)).
Proof.
  induction ts as [|t ts IH]; intros stop st n top Hchain Hnested.
  - exists st. split; [reflexivity|]. split; [eauto|].
    intros p0 node _ Hp0. exists node. by repeat split.
  - apply nested_cons in Hnested as [Hend Hnested].
    destruct (step_open_chain st t n top Hchain Hend) as (st1 & Hstep & Hchain1 & Htext1).
    destruct (IH stop st1 _ top Hchain1 Hnested) as (st' & Hloop & Hchain' & Htext').
    exists st'. simpl. rewrite Hstep. split; [exact Hloop|]. split; [exact Hchain'|].
    intros p0 node Htop Hp0.
    destruct (Htext1 p0 node Htop Hp0) as (node1 & Hp1 & Hn1 & Ha1 & Hpar1 & Ht1).
    destruct (Htext' p0 node1 Htop Hp1) as (node' & Hp' & Hn' & Ha' & Hpar' & Ht').
    exists node'. split; [exact Hp'|]. rewrite Ht1 in Ht'.
    repeat split; congruence.
Qed.

Lemma open_chain_init : open_chain (Nodes (doc init)) (e init) 0 None.
Proof.
  split; [constructor | intros q node r Hq; inversion Hq | discriminate].
Qed.


Lemma parse_nested p :
  nested 0 (tokens p) = true -> tokens p <> [] ->
  exists st, loop TrimSpace (tokens p) (stop p) init = Returns (st, stop p)
    /\ parse TrimSpace p =
       if decide (stop p = io_EOF) then Returns (Some (doc st), None)
       else Returns (None, Some (stop p)).
Proof.
  intros Hnested Hne.
  destruct (loop_open_chain (tokens p) (stop p) init 0 None open_chain_init Hnested)
    as (st & Hloop & _).
  exists st. split; [exact Hloop|]. unfold parse.
  destruct (tokens p) as [|t ts] eqn:Hts; [done|]. by rewrite Hloop.
Qed.

(** C4, as the code has it. When the reader hands out at least one token,
    none of them a start or end tag, and then reports io.EOF, [parse]
    returns a document without root and without nodes, and a nil error;
    when the very first read reports an error, io.EOF on an empty input
    included, [parse] returns the nil document and that error. *)
Theorem parse_without_elements (p : Decoder) :
  (tokens p <> [] -> forallb no_element (tokens p) = true -> stop p = io_EOF ->
   exists d, parse TrimSpace p = Returns (Some d, None)
     /\ Root d = None /\ Nodes d = [])
  /\ (tokens p = [] -> parse TrimSpace p = Returns (None, Some (stop p))).
Proof.
  split.
  - intros Hne Hts Hstop.
    destruct (loop_no_element (tokens p) (stop p) init Hts eq_refl)
      as (st & Hloop & _ & Hroot & Hnodes).
    exists (doc st). unfold parse.
    destruct (tokens p) as [|t ts]; [done|].
    rewrite Hloop, decide_True by exact Hstop. by repeat split.
  - intros Hnil. unfold parse. by rewrite Hnil.
Qed.

(** C5, as the code has it. When the reader, after properly nested tokens,
    reports an error other than io.EOF, [parse] returns the nil document and
    that very error value, not wrapped in anything. *)
Theorem parse_read_error (p : Decoder) :
  nested 0 (tokens p) = true -> stop p <> io_EOF ->
  parse TrimSpace p = Returns (None, Some (stop p)).
Proof.
  intros Hnested Hstop.
  destruct (decide (tokens p = [])) as [Hnil|Hne].
  - unfold parse. by rewrite Hnil.
  - destruct (parse_nested p Hnested Hne) as (st & _ & ->).
    by rewrite decide_False.
Qed.


(** C7. Character data met while the node [p] is open leaves in the store
    the node [p] with its text replaced by the trimmed data, whatever the
    text was, and no other node changed. Hence, on properly nested tokens,
    the element opened after the tokens [pre] has, after the tokens [body]
    that follow inside it and also after the end tag that may come next, the
    trimmed content of the last character data directly inside it as its
    text (and the empty text when there is none). *)
Theorem parse_CharData_text :
  (forall st data p node,
     e st = Some p -> Nodes (doc st) !! p = Some node ->
     exists st', step TrimSpace st (CharData data) = Returns st'
       /\ e st' = Some p
       /\ Nodes (doc st') !! p = Some (set_text (TrimSpace data) node)
       /\ Text (set_text (TrimSpace data) node) = TrimSpace data
       /\ forall q, q <> p -> Nodes (doc st') !! q = Nodes (doc st) !! q)
  /\ (forall pre name attr body close stop,
        nested 0 pre = true -> nested 0 body = true ->
        close = [] \/ (exists name', close = [EndElement name']) ->
        exists st st' node,
          loop TrimSpace pre stop init = Returns (st, stop)
          /\ loop TrimSpace (pre ++ StartElement name attr :: body ++ close)
                  stop init
             = Returns (st', stop)
          /\ Nodes (doc st') !! length (Nodes (doc st)) = Some node
          /\ NName node = Local name
          /\ Text node = direct_text TrimSpace 0 body EmptyString).
Proof.
  split.
  - intros st data p node He Hp. eexists. unfold step. rewrite He.
    split; [reflexivity|]. simpl. split; [reflexivity|].
    rewrite list_lookup_alter_eq, Hp. split; [reflexivity|]. split; [reflexivity|].
    intros q Hq. by rewrite list_lookup_alter_ne.
  - intros pre name attr body close stop Hpre Hbody Hclose.
    destruct (loop_open_chain pre stop init 0 None open_chain_init Hpre)
      as (st & Hloop & [n Hchain] & _).
    destruct (step_open_chain st (StartElement name attr) n None Hchain)
      as (st1 & Hstep & Hchain1 & _); [discriminate|].
    assert (exists node1, Nodes (doc st1) !! length (Nodes (doc st)) = Some node1
              /\ NName node1 = Local name /\ Text node1 = EmptyString
              /\ e st1 = Some (length (Nodes (doc st))))
      as (node1 & Hnode1 & Hname1 & Htext1 & He1).
    { simpl in Hstep. inversion Hstep; subst; clear Hstep. simpl.
      destruct (e st) as [p|] eqn:He.
      - destruct (open_chain_e_valid _ _ _ _ p Hchain eq_refl) as [np Hp].
        apply lookup_lt_Some in Hp.
        rewrite list_lookup_alter_ne by lia.
        rewrite list_lookup_middle by reflexivity. eexists. by repeat split.
      - rewrite list_lookup_middle by reflexivity. eexists. by repeat split. }
    assert (open_chain (Nodes (doc st1)) (e st1) 0 (Some (length (Nodes (doc st)))))
      as Hchain0.
    { destruct Hchain1 as [_ Hbelow _]. split; [rewrite He1; constructor | exact Hbelow|].
      intros p0 [= <-]. eauto. }
    destruct (loop_open_chain body stop st1 0 _ Hchain0 Hbody)
      as (st2 & Hloop2 & [n2 Hchain2] & Hkept).
    destruct (Hkept _ node1 eq_refl Hnode1) as (node & Hnode & Hname & _ & _ & Htext).
    assert (exists st', loop TrimSpace close stop st2 = Returns (st', stop)
              /\ Nodes (doc st') = Nodes (doc st2)) as (st' & Hloop' & Hnodes').
    { destruct Hclose as [->|[name' ->]]; [by exists st2|].
      destruct (e st2) as [p|] eqn:He2.
      - eexists. simpl. rewrite He2. split; reflexivity.
      - destruct Hchain2 as [Hpath _ _]. inversion Hpath. }
    exists st, st', node. split; [exact Hloop|].
    split.
    { rewrite loop_app, Hloop, loop_cons, Hstep, loop_app, Hloop2. exact Hloop'. }
    rewrite Hnodes'.
    split; [exact Hnode|]. split; [congruence|]. by rewrite Htext, Htext1.
Qed.


(** C10. Whenever [parse] or [File] returns a non-nil error, the document it
    returns with it is nil. *)
Theorem parse_error_without_document :
  (forall (p : Decoder) d err,
     parse TrimSpace p = Returns (d, Some err) -> d = None)
  /\ (forall (os_Open : string -> error + Decoder) filename d err,
        File TrimSpace os_Open filename = Returns (d, Some err) -> d = None).
Proof.
  assert (forall (p : Decoder) d err,
            parse TrimSpace p = Returns (d, Some err) -> d = None) as Hparse.
  { intros p d err. unfold parse. destruct (tokens p) as [|t ts]; [congruence|].
    destruct (loop TrimSpace (t :: ts) (stop p) init) as [[st err']|]; [|discriminate].
    destruct (decide (err' = io_EOF)); congruence. }
  split; [exact Hparse|].
  intros os_Open filename d err. unfold File.
  destruct (os_Open filename) as [err'|file]; [congruence | apply Hparse].
Qed.

End ParserFacts.

(** ** Concrete runs *)

Section Runs.

Import parse.

Local Open Scope string_scope.

(** The empty input: the first read reports io.EOF. *)
Lemma parse_without_elements_counterexample :
  parse TrimSpaceASCII {| tokens := []; stop := io_EOF |}
  = Returns (None, Some io_EOF)
  /\ ~ exists d, parse TrimSpaceASCII {| tokens := []; stop := io_EOF |}
                 = Returns (Some d, None).
Proof. split; [reflexivity | intros [d Hd]; discriminate]. Qed.

(** A prolog without any element. *)
Lemma parse_without_elements_witness :
  let p := {| tokens := [ProcInst "xml" "version=1.0"; CharData " ";
                         Directive "DOCTYPE note"; Comment "none"];
              stop := io_EOF |} in
  exists d, parse TrimSpaceASCII p = Returns (Some d, None)
    /\ Root d = None /\ Nodes d = [].
Proof.
  intros p.
  apply (proj1 (parse_without_elements TrimSpaceASCII p));
    [discriminate | reflexivity | reflexivity].
Defined.

(** The input breaks off inside the element [a]. *)
Lemma parse_read_error_counterexample :
  let p := {| tokens := [StartElement a_tag []; CharData "x"];
              stop := reader_error "XML syntax error: unexpected EOF" |} in
  parse TrimSpaceASCII p = Returns (None, Some (stop p))
  /\ forall d cause,
       parse TrimSpaceASCII p <> Returns (d, Some (ParseError cause)).
Proof. intros p. split; [reflexivity | intros d cause; discriminate]. Qed.

Lemma parse_read_error_witness :
  let p := {| tokens := [StartElement a_tag []; CharData "x"];
              stop := reader_error "XML syntax error: unexpected EOF" |} in
  parse TrimSpaceASCII p
  = Returns (None, Some (reader_error "XML syntax error: unexpected EOF")).
Proof.
  intros p.
  apply (parse_read_error TrimSpaceASCII p); [reflexivity | discriminate].
Defined.



(** The element [a] with the text [x], the child [b] and the text [z],
    after a processing instruction. *)
Lemma parse_CharData_text_witness :
  let pre := [ProcInst "xml" "version=1.0"] in
  let body := [CharData " x "; StartElement b_tag []; CharData "y";
               EndElement b_tag; CharData " z "] in
  exists st st' node,
    loop TrimSpaceASCII pre io_EOF init = Returns (st, io_EOF)
    /\ loop TrimSpaceASCII
         (pre ++ StartElement a_tag [] :: body ++ [EndElement a_tag]) io_EOF init
       = Returns (st', io_EOF)
    /\ Nodes (doc st') !! length (Nodes (doc st)) = Some node
    /\ NName node = "a"
    /\ Text node = "z".
Proof.
  intros pre body.
  apply (proj2 (parse_CharData_text TrimSpaceASCII) pre a_tag [] body
           [EndElement a_tag] io_EOF); [reflexivity | reflexivity | eauto].
Defined.


Lemma parse_error_without_document_witness :
  let p := {| tokens := [StartElement a_tag []];
              stop := reader_error "XML syntax error: unexpected EOF" |} in
  parse TrimSpaceASCII p
  = Returns (None, Some (reader_error "XML syntax error: unexpected EOF"))
  /\ (None : option Document) = None.
Proof.
  intros p. split; [reflexivity|].
  apply (proj1 (parse_error_without_document TrimSpaceASCII) p None
           (reader_error "XML syntax error: unexpected EOF")).
  reflexivity.
Defined.

(** The document [a] with the attribute [id], the empty child [b] and the
    text [x]. *)
Example parse_small_document :
  let id := {| AttrName := {| Space := EmptyString; Local := "id" |};
               AttrValue := "1" |} in
  parse TrimSpaceASCII
    {| tokens := [StartElement a_tag [id]; StartElement b_tag [];
                  EndElement b_tag; CharData " x "; EndElement a_tag];
       stop := io_EOF |}
  = Returns
      (Some {| ProcInst_ := EmptyString; Directives := []; Root := Some 0%nat;
               Nodes := [ {| NName := "a";
                             Attributes := [{| AName := "id"; AValue := "1" |}];
                             Children := [1%nat]; Parent := None; Text := "x" |};
                          {| NName := "b"; Attributes := []; Children := [];
                             Parent := Some 0%nat; Text := EmptyString |} ] |},
       None).
Proof. reflexivity. Qed.

End Runs.

(** * Further properties *)

(** ** The attribute counter: order, overflow, names *)

Section AttributeCounterOrder.

Import stats.

Lemma wrap_wrap_add (a b : Z) : wrap (wrap a + b) = wrap (a + b).
Proof.
  unfold wrap. f_equal.
  replace ((a + 2 ^ 63) mod 2 ^ 64 - 2 ^ 63 + b + 2 ^ 63)
    with ((a + 2 ^ 63) mod 2 ^ 64 + b) by lia.
  rewrite Z.add_mod_idemp_l by lia. f_equal. lia.
Qed.

Lemma wrap_range (z : Z) : minInt <= wrap z <= maxInt.
Proof.
  unfold wrap, minInt, maxInt.
  pose proof (Z.mod_pos_bound (z + 2 ^ 63) (2 ^ 64)). lia.
Qed.

Lemma Add_eq (n m : Attribute) a : Name n = Name m -> Add n a = Add m a.
Proof. unfold Add. by intros ->. Qed.

(** Two calls in a row may be swapped. *)
Lemma Add_Add_swap (n m : Attribute) a : Add n (Add m a) = Add m (Add n a).
Proof.
  destruct (decide (Name n = Name m)) as [Heq|Hne].
  - rewrite (Add_eq n m (Add m a) Heq), (Add_eq n m a Heq). reflexivity.
  - unfold Add. simpl. f_equal.
    rewrite !lookup_insert_ne by congruence.
    apply insert_insert_ne. congruence.
Qed.

(** What a call leaves at its own name. *)
Lemma Add_lookup_same n a :
  Get (Add n a) !! Name n =
  Some (match Get a !! Name n with Some x => wrap (x + 1) | None => 1 end).
Proof. unfold Get, Add. simpl. apply lookup_insert_eq. Qed.

(** X1. The counter reached by a sequence of [Add] calls does not depend on
    the order of the calls: from any counter, two sequences that are
    permutations of each other lead to the same map. *)
Theorem Attributes_Add_order (ns1 ns2 : list Attribute) (a : attributesWithLock) :
  ns1 ≡ₚ ns2 -> AddAll ns1 a = AddAll ns2 a.
Proof.
  intros Hperm. revert a.
  induction Hperm as [|n ns1 ns2 _ IH|n m ns|ns1 ns2 ns3 _ IH12 _ IH23]; intros a.
  - reflexivity.
  - apply IH.
  - unfold AddAll. simpl. by rewrite Add_Add_swap.
  - by rewrite IH12.
Qed.

Lemma Attributes_Add_order_witness :
  let x := {| Name := "id"; Value := "1" |} in
  let r := {| Name := "ref"; Value := "2" |} in
  AddAll [x; r; x] newAttributesWithLock = AddAll [r; x; x] newAttributesWithLock.
Proof.
  intros x r. apply (Attributes_Add_order [x; r; x] [r; x; x]).
  apply perm_swap.
Defined.


(** The count of a name after a sequence of calls, from a map whose values
    are [int]s: the count before plus the number of calls, as an [int]. *)
Lemma AddAll_lookup_wrap ns : forall a name,
  (forall nm x, Get a !! nm = Some x -> minInt <= x <= maxInt) ->
  Get (AddAll ns a) !! name =
  match Get a !! name with
  | Some x => Some (wrap (x + calls_with name ns))
  | None => if decide (name ∈ Name <$> ns)
            then Some (wrap (calls_with name ns)) else None
  end.
Proof.
  induction ns as [|n ns IH]; intros a name Hint.
  - change (AddAll [] a) with a. destruct (Get a !! name) as [x|] eqn:Hx.
    + f_equal. change (calls_with name []) with 0.
      rewrite Z.add_0_r. symmetry. apply wrap_id. eauto.
    + rewrite decide_False by apply not_elem_of_nil. reflexivity.
  - change (AddAll (n :: ns) a) with (AddAll ns (Add n a)).
    rewrite IH.
    + rewrite (calls_with_cons name n ns), fmap_cons.
      destruct (decide (Name n = name)) as [<-|Hne].
      * destruct (Get a !! Name n) as [x|] eqn:Hx.
        -- rewrite (Add_lookup_same n a), Hx.
           rewrite wrap_wrap_add. do 2 f_equal. lia.
        -- rewrite (Add_lookup_same n a), Hx.
           rewrite decide_True by apply list_elem_of_here. reflexivity.
      * rewrite (Add_other n a name Hne), Z.add_0_l.
        destruct (Get a !! name); [reflexivity|].
        destruct (decide (name ∈ Name <$> ns)) as [Hin|Hin].
        -- rewrite decide_True by (by apply list_elem_of_further). reflexivity.
        -- rewrite decide_False; [reflexivity|].
           rewrite not_elem_of_cons. split; congruence.
    + intros nm x. destruct (decide (Name n = nm)) as [<-|Hne].
      * rewrite (Add_lookup_same n a).
        destruct (Get a !! Name n); intros [= <-];
          [apply wrap_range | unfold minInt, maxInt; lia].
      * rewrite (Add_other n a nm Hne). eauto.
Qed.

(** X2. Without any bound on the number of calls: after a sequence of [Add]
    calls on a new counter, a name that was added maps to the number of
    calls made with it reduced to the 64-bit [int] (so the count turns
    negative at the call number 2^63), and no other name is in the map. *)
Theorem Attributes_Add_counts_wrap (ns : list Attribute) (name : string) :
  Get (AddAll ns newAttributesWithLock) !! name =
  if decide (name ∈ Name <$> ns) then Some (wrap (calls_with name ns)) else None.
Proof.
  rewrite AddAll_lookup_wrap.
  - change (Get newAttributesWithLock) with (∅ : gmap string Z).
    by rewrite lookup_empty.
  - intros nm x. change (Get newAttributesWithLock) with (∅ : gmap string Z).
    rewrite lookup_empty. discriminate.
Qed.

(** The count kept for the largest [int] is followed by the smallest. *)
Lemma Add_at_maxInt n a :
  Get a !! Name n = Some maxInt -> Get (Add n a) !! Name n = Some minInt.
Proof. intros H. rewrite (Add_lookup_same n a), H. reflexivity. Qed.

Lemma AddAll_agree ns name : forall a b,
  Get a !! name = Get b !! name ->
  Get (AddAll ns a) !! name = Get (AddAll (calls_of name ns) b) !! name.
Proof.
  induction ns as [|n ns IH]; intros a b Hab; [exact Hab|].
  change (AddAll (n :: ns) a) with (AddAll ns (Add n a)).
  unfold calls_of. rewrite filter_cons.
  destruct (decide (Name n = name)) as [<-|Hne].
  - change (AddAll (n :: ?l) b) with (AddAll l (Add n b)).
    apply IH. by rewrite !Add_lookup_same, Hab.
  - apply IH. by rewrite (Add_other n a name Hne).
Qed.

(** X3. The count of a name is independent of the calls made with other
    names: from any counter, dropping all calls with other names from the
    sequence leaves the count of the name as it is. *)
Theorem Attributes_Add_independent (ns : list Attribute) (a : attributesWithLock)
  (name : string) :
  Get (AddAll ns a) !! name = Get (AddAll (calls_of name ns) a) !! name.
Proof. by apply AddAll_agree. Qed.

Lemma size_union_bound (X Y : gset string) : (size (X ∪ Y) <= size X + size Y)%nat.
Proof.
  rewrite size_union_alt. apply Nat.add_le_mono_l, subseteq_size.
  intros x Hx. by apply elem_of_difference in Hx as [Hx _].
Qed.

(** X4. [Add] never removes a name: from any counter, the names in the map
    after a sequence of calls are the names that were in it before together
    with the names added, and [Len()] grows by at most one per call. *)
Theorem Attributes_Add_names (ns : list Attribute) (a : attributesWithLock) :
  dom (Get (AddAll ns a)) = dom (Get a) ∪ list_to_set (Name <$> ns)
  /\ Len a <= Len (AddAll ns a) <= Len a + Z.of_nat (length ns).
Proof.
  assert (dom (Get (AddAll ns a)) = dom (Get a) ∪ list_to_set (Name <$> ns)) as Hdom.
  { revert a. induction ns as [|n ns IH]; intros a.
    - change (AddAll [] a) with a.
      by rewrite fmap_nil, list_to_set_nil, (right_id_L ∅ (∪)).
    - change (AddAll (n :: ns) a) with (AddAll ns (Add n a)).
      rewrite IH, fmap_cons, list_to_set_cons. unfold Get, Add. simpl.
      rewrite dom_insert_L, (comm_L (∪) {[Name n]} (dom (in_ a))).
      by rewrite (assoc_L (∪)). }
  split; [exact Hdom|].
  unfold Len. rewrite <- !size_dom. change (in_ ?x) with (Get x). rewrite Hdom.
  split.
  - apply inj_le, subseteq_size, union_subseteq_l.
  - rewrite <- Nat2Z.inj_add. apply inj_le.
    etransitivity; [apply size_union_bound|].
    apply Nat.add_le_mono_l.
    clear. induction ns as [|n ns IH].
    + rewrite fmap_nil, list_to_set_nil, size_empty. reflexivity.
    + rewrite fmap_cons, list_to_set_cons. simpl length.
      etransitivity; [apply size_union_bound|]. rewrite size_singleton. lia.
Qed.

End AttributeCounterOrder.

(** ** The schema printer: the writes spell out the tree *)

Section SchemaPrinterReadBack.

Import print.

Context {Attrs : Type}.

Implicit Types (elem : Element Attrs) (elems : Elements_t Attrs).
Implicit Types (ws rest : list (write Attrs)) (r : reader (Attrs := Attrs)).

Lemma read_writes_app l0 r ws1 ws2 :
  read_writes l0 r (ws1 ++ ws2) =
  read_writes l0 r ws1 ≫= fun r' => read_writes l0 r' ws2.
Proof.
  revert r. induction ws1 as [|w ws1 IH]; intros r; [reflexivity|].
  simpl. destruct (read_write l0 r w); [apply IH | reflexivity].
Qed.

(** The writes of one entry, read at the depth of the open blocks, complete
    that entry at the current level. *)
Lemma read_element l0 elem : forall k c done blocks rest,
  read_writes l0 {| r_done := done; r_pending := P_none; r_blocks := blocks |}
    (element (l0 + length blocks) c k elem ++ rest) =
  read_writes l0 {| r_done := done ++ [(k, elem)]; r_pending := P_none;
                    r_blocks := blocks |} rest.
Proof.
  induction elem as [cn a el IH] using Element_nested_ind.
  intros k c done blocks rest.
  rewrite element_unfold.
  change (El (mkElement cn a el)) with el.
  change (Cn (mkElement cn a el)) with cn.
  change (At (mkElement cn a el)) with a.
  assert (forall done' blocks' c' rest',
            read_writes l0 {| r_done := done'; r_pending := P_none;
                              r_blocks := blocks' |}
              (Elements el (l0 + length blocks') c' ++ rest') =
            read_writes l0 {| r_done := done' ++ el; r_pending := P_none;
                              r_blocks := blocks' |} rest') as Hchildren.
  { clear -IH. induction IH as [|[k' e'] el Hhd Htl IHel];
      intros done' blocks' c' rest'.
    - by rewrite app_nil_r.
    - rewrite Elements_cons, <- app_assoc. simpl in Hhd. rewrite Hhd, IHel.
      by rewrite <- app_assoc. }
  simpl. rewrite decide_True by reflexivity. simpl.
  assert (forall r0 ws0,
            r_pending r0 = P_count k cn ->
            read_writes l0 r0
              ((if cn <? c then [W_optional] else []) ++ W_attributes a :: ws0)
            = read_writes l0 {| r_done := r_done r0;
                                r_pending := P_attributes k cn a;
                                r_blocks := r_blocks r0 |} ws0) as Hheader.
  { intros [d0 p0 b0] ws0 Hp. simpl in Hp. subst p0.
    destruct (cn <? c); reflexivity. }
  rewrite <- app_assoc. simpl. rewrite Hheader by reflexivity. simpl.
  destruct el as [|ke el]; [reflexivity|].
  replace (Len (ke :: el) >? 0) with true
    by (symmetry; apply Len_pos_iff; discriminate).
  simpl app. cbn [read_writes read_write r_pending r_done r_blocks].
  rewrite <- app_assoc.
  specialize (Hchildren [] ((done, (k, cn, a)) :: blocks) cn
                ([W_close (l0 + length blocks) k] ++ rest)).
  cbn [length] in Hchildren. rewrite Nat.add_succ_r in Hchildren.
  rewrite Hchildren. cbn [app read_writes read_write r_pending r_done r_blocks].
  rewrite decide_True by done. reflexivity.
Qed.

(** X5. The writes of [Elements] are well nested and lose nothing of the
    tree: read back at the depth [l] of the call (every opening at the depth
    of the blocks open around it, every closing tag matching the depth and
    tag name of the block opened last), they spell out the entries that were
    printed, with their counts, attributes and children, in the order of the
    iteration. *)
Theorem Elements_read_back elems l c :
  read_back l (Elements elems l c) = Some (Get elems).
Proof.
  unfold read_back.
  assert (forall done,
            read_writes l {| r_done := done; r_pending := P_none; r_blocks := [] |}
              (Elements elems l c) =
            Some {| r_done := done ++ elems; r_pending := P_none;
                    r_blocks := [] |}) as Hread.
  { induction elems as [|[k elem] elems IH]; intros done.
    - by rewrite app_nil_r.
    - rewrite Elements_cons.
      pose proof (read_element l elem k c done [] (Elements elems l c)) as Hel.
      simpl length in Hel. rewrite Nat.add_0_r in Hel. rewrite Hel, IH.
      by rewrite <- app_assoc. }
  rewrite Hread. reflexivity.
Qed.

End SchemaPrinterReadBack.

(** ** The parser: the tree that is built *)

Section ParserTree.

Import parse.

Local Open Scope nat_scope.

Variable TrimSpace : string -> string.

Implicit Types (st : state) (t : Token) (ts : list Token) (nodes : list Node).

(** *** Changes of the store that keep parents and children *)

Lemma fmap_alter_kept {B : Type} (h : Node -> B) (f : Node -> Node) nodes p :
  (forall n, h (f n) = h n) -> h <$> alter f p nodes = h <$> nodes.
Proof.
  intros Hf. apply list_eq. intros i.
  rewrite !list_lookup_fmap, list_lookup_alter.
  destruct (decide (p = i)) as [->|]; [|reflexivity].
  destruct (nodes !! i); simpl; [by rewrite Hf | reflexivity].
Qed.

Lemma open_list_mono nodes nodes' e l :
  (forall q node, nodes !! q = Some node ->
     exists node', nodes' !! q = Some node' /\ Parent node' = Parent node) ->
  open_list nodes e l -> open_list nodes' e l.
Proof.
  intros Hmono. induction 1 as [|p node l Hp _ IH]; [constructor|].
  destruct (Hmono p node Hp) as (node' & Hp' & Hpar).
  econstructor; [exact Hp' | by rewrite Hpar].
Qed.

Lemma open_list_head nodes e l : open_list nodes e l -> head l = e.
Proof. by destruct 1. Qed.

Lemma open_list_valid nodes e l p :
  open_list nodes e l -> e = Some p -> is_Some (nodes !! p).
Proof. destruct 1; intros Heq; inversion Heq; subst; eauto. Qed.

Lemma open_list_is_open nodes e l x :
  open_list nodes e l -> x ∈ l -> is_open nodes e x.
Proof.
  induction 1 as [|p node l Hp _ IH]; intros Hx.
  - by apply not_elem_of_nil in Hx.
  - apply elem_of_cons in Hx as [->|Hx].
    + exists 0. constructor.
    + destruct (IH Hx) as [n Hn]. exists (S n). econstructor; eassumption.
Qed.

(** The store after a start tag, node by node. *)
Lemma lookup_after_start nodes e node q :
  (forall p, e = Some p -> p < length nodes) ->
  match e with
  | Some p => alter (append_child (length nodes)) p (nodes ++ [node])
  | None => nodes ++ [node]
  end !! q =
  if decide (q = length nodes) then Some node
  else if decide (e = Some q) then append_child (length nodes) <$> nodes !! q
  else nodes !! q.
Proof.
  intros Hvalid.
  assert ((nodes ++ [node]) !! q =
          if decide (q = length nodes) then Some node else nodes !! q) as Happ.
  { destruct (decide (q = length nodes)) as [->|Hne].
    - by apply list_lookup_middle.
    - destruct (decide (q < length nodes)) as [Hlt|Hge].
      + by apply lookup_app_l.
      + rewrite (proj2 (lookup_ge_None nodes q)) by lia.
        apply lookup_ge_None. rewrite length_app. simpl. lia. }
  destruct e as [p|].
  - specialize (Hvalid p eq_refl). rewrite list_lookup_alter.
    destruct (decide (p = q)) as [->|Hpq]; rewrite Happ;
      repeat case_decide; simplify_eq; try lia; reflexivity.
  - rewrite Happ. repeat case_decide; simplify_eq; reflexivity.
Qed.


Lemma parents_below_alter (f : Node -> Node) nodes p :
  (forall n, Parent (f n) = Parent n) ->
  parents_below nodes -> parents_below (alter f p nodes).
Proof.
  intros Hf Hbelow q node r Hq Hr. rewrite list_lookup_alter in Hq.
  destruct (decide (p = q)) as [->|]; [|eauto].
  destruct (nodes !! q) as [node0|] eqn:Hq0; [|discriminate].
  simpl in Hq. inversion Hq; subst. rewrite Hf in Hr. eauto.
Qed.

Lemma lookup_alter_kept (f : Node -> Node) nodes p q node :
  (forall n, Parent (f n) = Parent n) ->
  (forall n, Children (f n) = Children n) ->
  alter f p nodes !! q = Some node ->
  exists node0, nodes !! q = Some node0
    /\ Parent node = Parent node0 /\ Children node = Children node0.
Proof.
  intros Hpar Hch. rewrite list_lookup_alter.
  destruct (decide (p = q)) as [->|]; [|eauto].
  destruct (nodes !! q) as [node0|]; [|discriminate].
  simpl. intros [= <-]. eauto.
Qed.

Lemma lookup_alter_kept_inv (f : Node -> Node) nodes p q node0 :
  (forall n, Parent (f n) = Parent n) ->
  (forall n, Children (f n) = Children n) ->
  nodes !! q = Some node0 ->
  exists node, alter f p nodes !! q = Some node
    /\ Parent node = Parent node0 /\ Children node = Children node0.
Proof.
  intros Hpar Hch Hq. rewrite list_lookup_alter.
  destruct (decide (p = q)) as [->|]; rewrite Hq; simpl; eauto.
Qed.

Lemma linked_alter (f : Node -> Node) nodes p :
  (forall n, Parent (f n) = Parent n) ->
  (forall n, Children (f n) = Children n) ->
  linked nodes -> linked (alter f p nodes).
Proof.
  intros Hpar Hch [Hup Hdown Honce]. split.
  - intros q nq r Hq Hr.
    destruct (lookup_alter_kept f nodes p q nq Hpar Hch Hq) as (nq0 & Hq0 & Hp0 & _).
    destruct (Hup q nq0 r Hq0) as (nr & Hnr & Hin); [congruence|].
    destruct (lookup_alter_kept_inv f nodes p r nr Hpar Hch Hnr) as (nr' & Hnr' & _ & Hc).
    exists nr'. split; [exact Hnr' | by rewrite Hc].
  - intros r nr q Hr Hin.
    destruct (lookup_alter_kept f nodes p r nr Hpar Hch Hr) as (nr0 & Hr0 & _ & Hc0).
    rewrite Hc0 in Hin.
    destruct (Hdown r nr0 q Hr0 Hin) as (nq & Hnq & Hpq).
    destruct (lookup_alter_kept_inv f nodes p q nq Hpar Hch Hnq) as (nq' & Hnq' & Hp' & _).
    exists nq'. split; [exact Hnq' | congruence].
  - intros r nr Hr.
    destruct (lookup_alter_kept f nodes p r nr Hpar Hch Hr) as (nr0 & Hr0 & _ & Hc0).
    rewrite Hc0. eauto.
Qed.

(** *** The store after a start tag *)

Section AfterStart.

Variables (nodes nodes' : list Node) (e : option addr) (l : list addr)
  (node : Node).

Hypothesis Hopen : open_list nodes e l.
Hypothesis Hparent : Parent node = e.
Hypothesis Hchildren : Children node = [].
Hypothesis Hlookup : forall q,
  nodes' !! q =
  if decide (q = length nodes) then Some node
  else if decide (e = Some q) then append_child (length nodes) <$> nodes !! q
  else nodes !! q.

Lemma after_start_new : nodes' !! length nodes = Some node.
Proof. by rewrite Hlookup, decide_True. Qed.

Lemma after_start_old q nq :
  nodes !! q = Some nq ->
  exists nq', nodes' !! q = Some nq' /\ Parent nq' = Parent nq
    /\ Children nq' = (if decide (e = Some q)
                       then Children nq ++ [length nodes] else Children nq).
Proof.
  intros Hq. pose proof (lookup_lt_Some _ _ _ Hq).
  rewrite Hlookup, decide_False by lia. rewrite Hq.
  destruct (decide (e = Some q)); simpl; eauto.
Qed.

Lemma after_start_inv q nq' :
  nodes' !! q = Some nq' ->
  (q = length nodes /\ nq' = node)
  \/ (exists nq, nodes !! q = Some nq /\ Parent nq' = Parent nq
        /\ Children nq' = (if decide (e = Some q)
                           then Children nq ++ [length nodes] else Children nq)).
Proof.
  rewrite Hlookup. destruct (decide (q = length nodes)) as [->|Hne].
  - intros [= <-]. by left.
  - intros Hq. right. destruct (nodes !! q) as [nq|] eqn:Hq0.
    + exists nq. split; [reflexivity|].
      destruct (decide (e = Some q)); simpl in Hq; inversion Hq; by subst.
    + destruct (decide (e = Some q)); discriminate.
Qed.

Lemma after_start_open_list : open_list nodes' (Some (length nodes)) (length nodes :: l).
Proof.
  econstructor; [apply after_start_new|]. rewrite Hparent.
  eapply open_list_mono; [|exact Hopen].
  intros q nq Hq. destruct (after_start_old q nq Hq) as (nq' & ? & ? & _). eauto.
Qed.

Lemma after_start_below : parents_below nodes -> parents_below nodes'.
Proof.
  intros Hbelow q nq' r Hq Hr.
  destruct (after_start_inv q nq' Hq) as [[-> ->]|(nq & Hq0 & Hp & _)].
  - rewrite Hparent in Hr.
    destruct (open_list_valid _ _ _ r Hopen Hr) as [nr Hnr].
    by apply lookup_lt_Some in Hnr.
  - rewrite Hp in Hr. eauto.
Qed.

Lemma after_start_linked : linked nodes -> linked nodes'.
Proof.
  intros [Hup Hdown Honce]. split.
  - intros q nq' r Hq Hr.
    destruct (after_start_inv q nq' Hq) as [[-> ->]|(nq & Hq0 & Hp & _)].
    + rewrite Hparent in Hr.
      destruct (open_list_valid _ _ _ r Hopen Hr) as [nr Hnr].
      destruct (after_start_old r nr Hnr) as (nr' & Hnr' & _ & Hc).
      exists nr'. split; [exact Hnr'|]. rewrite Hc, decide_True by exact Hr.
      apply elem_of_app. right. apply list_elem_of_singleton. reflexivity.
    + rewrite Hp in Hr. destruct (Hup q nq r Hq0 Hr) as (nr & Hnr & Hin).
      destruct (after_start_old r nr Hnr) as (nr' & Hnr' & _ & Hc).
      exists nr'. split; [exact Hnr'|]. rewrite Hc.
      destruct (decide (e = Some r)); [apply elem_of_app; by left | exact Hin].
  - intros r nr' q Hr Hin.
    destruct (after_start_inv r nr' Hr) as [[-> ->]|(nr & Hr0 & _ & Hc)].
    + rewrite Hchildren in Hin. by apply not_elem_of_nil in Hin.
    + rewrite Hc in Hin.
      assert (q ∈ Children nr \/ (e = Some r /\ q = length nodes)) as [Hold|[He ->]].
      { destruct (decide (e = Some r)); [|by left].
        apply elem_of_app in Hin as [?|Hin]; [by left|].
        apply list_elem_of_singleton in Hin. by right. }
      * destruct (Hdown r nr q Hr0 Hold) as (nq & Hnq & Hpq).
        destruct (after_start_old q nq Hnq) as (nq' & Hnq' & Hp & _).
        exists nq'. split; [exact Hnq' | congruence].
      * exists node. split; [apply after_start_new | congruence].
  - intros r nr' Hr.
    destruct (after_start_inv r nr' Hr) as [[-> ->]|(nr & Hr0 & _ & Hc)].
    + rewrite Hchildren. constructor.
    + rewrite Hc. destruct (decide (e = Some r)); [|eauto].
      apply NoDup_app. split; [eauto|]. split; [|apply NoDup_singleton].
      intros q Hq Hq'. apply list_elem_of_singleton in Hq'. subst q.
      destruct (Hdown r nr _ Hr0 Hq) as (nq & Hnq & _).
      apply lookup_lt_Some in Hnq. lia.
Qed.

Lemma after_start_frame x :
  x ∉ l -> x < length nodes -> nodes' !! x = nodes !! x.
Proof.
  intros Hx Hlt. rewrite Hlookup, decide_False by lia.
  rewrite decide_False; [reflexivity|].
  intros He. apply Hx. rewrite <- (open_list_head _ _ _ Hopen) in He.
  destruct l; [discriminate|]. simpl in He. inversion He. apply list_elem_of_here.
Qed.

End AfterStart.


(** *** One token and a run of tokens *)

Lemma enclosing_cons next stack t ts :
  enclosing next stack (t :: ts) =
  enclosing next stack [t]
  ++ enclosing (next + length (start_tags [t])) (stack_after next stack t) ts.
Proof.
  destruct t; simpl; rewrite ?Nat.add_0_r, ?Nat.add_1_r; reflexivity.
Qed.

Lemma start_tags_cons t ts : start_tags (t :: ts) = start_tags [t] ++ start_tags ts.
Proof. by destruct t. Qed.

Lemma directives_cons t ts : directives (t :: ts) = directives [t] ++ directives ts.
Proof. by destruct t. Qed.

Lemma last_ProcInst_cons t ts text :
  last_ProcInst (t :: ts) text = last_ProcInst ts (last_ProcInst [t] text).
Proof. by destruct t. Qed.

Lemma not_elem_of_stack_after next stack t x :
  x ∉ stack -> x < next -> x ∉ stack_after next stack t.
Proof.
  intros Hx Hlt. destruct t; simpl; try exact Hx.
  - apply not_elem_of_cons. split; [lia | exact Hx].
  - destruct stack; [exact Hx|]. apply not_elem_of_cons in Hx. tauto.
Qed.

Local Ltac split_ands := repeat match goal with |- _ /\ _ => split end.

(** What one token does to the tree. *)
Lemma step_tree st t st' l :
  step TrimSpace st t = Returns st' ->
  open_list (Nodes (doc st)) (e st) l ->
  parents_below (Nodes (doc st)) -> linked (Nodes (doc st)) ->
  open_list (Nodes (doc st')) (e st')
    (stack_after (length (Nodes (doc st))) l t)
  /\ parents_below (Nodes (doc st')) /\ linked (Nodes (doc st'))
  /\ tag_of <$> Nodes (doc st') = (tag_of <$> Nodes (doc st)) ++ start_tags [t]
  /\ Parent <$> Nodes (doc st')
     = (Parent <$> Nodes (doc st)) ++ enclosing (length (Nodes (doc st))) l [t]
  /\ Directives (doc st') = Directives (doc st) ++ directives [t]
  /\ ProcInst_ (doc st') = last_ProcInst [t] (ProcInst_ (doc st))
  /\ Root (doc st') = match Root (doc st), start_tags [t] with
                      | Some r, _ => Some r
                      | None, [] => None
                      | None, _ :: _ => Some (length (Nodes (doc st)))
                      end
  /\ (forall x, x ∉ l -> x < length (Nodes (doc st)) ->
        Nodes (doc st') !! x = Nodes (doc st) !! x).
Proof.
  intros Hstep Hopen Hbelow Hlinked. destruct st as [d e0]. simpl in *.
  destruct t as [name attr|name|data|data|target inst|data]; simpl in Hstep.
  - (* StartElement *)
    inversion Hstep; subst st'; clear Hstep. simpl.
    set (node := {| NName := Local name; Attributes := copy_attributes attr;
                    Children := []; Parent := e0; Text := EmptyString |}).
    assert (forall p, e0 = Some p -> p < length (Nodes d)) as Hvalid.
    { intros p Hp. destruct (open_list_valid _ _ _ p Hopen Hp) as [np Hnp].
      by apply lookup_lt_Some in Hnp. }
    pose proof (fun q => lookup_after_start (Nodes d) e0 node q Hvalid) as Hlookup.
    split; [exact (after_start_open_list (Nodes d) _ e0 l node Hopen eq_refl Hlookup)|].
    split; [exact (after_start_below (Nodes d) _ e0 l node Hopen eq_refl Hlookup Hbelow)|].
    split; [exact (after_start_linked (Nodes d) _ e0 l node Hopen eq_refl eq_refl
                     Hlookup Hlinked)|].
    split.
    { destruct e0; rewrite ?fmap_alter_kept by reflexivity; by rewrite fmap_app. }
    split.
    { rewrite (open_list_head _ _ _ Hopen).
      destruct e0; rewrite ?fmap_alter_kept by reflexivity; by rewrite fmap_app. }
    split; [by rewrite app_nil_r|]. split; [reflexivity|].
    split; [by destruct (Root d)|].
    intros x Hx Hlt.
    exact (after_start_frame (Nodes d) _ e0 l node Hopen Hlookup x Hx Hlt).
  - (* EndElement *)
    destruct e0 as [p|]; [|discriminate].
    inversion Hstep; subst st'; clear Hstep. simpl.
    inversion Hopen as [|? np l' Hp Hrest]; subst. rewrite Hp. simpl.
    rewrite !app_nil_r. split_ands; try done; by destruct (Root d).
  - (* CharData *)
    destruct e0 as [p|]; inversion Hstep; subst st'; clear Hstep; simpl.
    + split.
      { eapply open_list_mono; [|exact Hopen].
        intros q nq Hq. by apply lookup_alter_Parent. }
      split; [by apply parents_below_alter|].
      split; [by apply linked_alter|].
      rewrite !fmap_alter_kept by reflexivity. rewrite !app_nil_r.
      split_ands; try done; [by destruct (Root d)|].
      intros x Hx Hlt. apply list_lookup_alter_ne. intros ->.
      apply Hx. inversion Hopen; subst. apply list_elem_of_here.
    + rewrite !app_nil_r. split_ands; try done; by destruct (Root d).
  - inversion Hstep; subst st'; clear Hstep; simpl.
    rewrite !app_nil_r. split_ands; try done; by destruct (Root d).
  - inversion Hstep; subst st'; clear Hstep; simpl.
    rewrite !app_nil_r. split_ands; try done; by destruct (Root d).
  - inversion Hstep; subst st'; clear Hstep; simpl.
    rewrite !app_nil_r. split_ands; try done; by destruct (Root d).
Qed.

(** What a run of tokens that returns does to the tree. *)
Lemma loop_tree ts : forall stop st st' err l,
  loop TrimSpace ts stop st = Returns (st', err) ->
  open_list (Nodes (doc st)) (e st) l ->
  parents_below (Nodes (doc st)) -> linked (Nodes (doc st)) ->
  err = stop
  /\ (exists l', open_list (Nodes (doc st')) (e st') l')
  /\ parents_below (Nodes (doc st')) /\ linked (Nodes (doc st'))
  /\ tag_of <$> Nodes (doc st') = (tag_of <$> Nodes (doc st)) ++ start_tags ts
  /\ Parent <$> Nodes (doc st')
     = (Parent <$> Nodes (doc st)) ++ enclosing (length (Nodes (doc st))) l ts
  /\ Directives (doc st') = Directives (doc st) ++ directives ts
  /\ ProcInst_ (doc st') = last_ProcInst ts (ProcInst_ (doc st))
  /\ Root (doc st') = match Root (doc st), start_tags ts with
                      | Some r, _ => Some r
                      | None, [] => None
                      | None, _ :: _ => Some (length (Nodes (doc st)))
                      end
  /\ (forall x, x ∉ l -> x < length (Nodes (doc st)) ->
        Nodes (doc st') !! x = Nodes (doc st) !! x).
Proof.
  induction ts as [|t ts IH]; intros stop st st' err l Hloop Hopen Hbelow Hlinked.
  - simpl in Hloop. inversion Hloop; subst. rewrite !app_nil_r.
    split_ands; eauto. by destruct (Root (doc st')).
  - rewrite loop_cons in Hloop.
    destruct (step TrimSpace st t) as [st1|] eqn:Hstep; [|discriminate].
    destruct (step_tree st t st1 l Hstep Hopen Hbelow Hlinked)
      as (Hopen1 & Hbelow1 & Hlinked1 & Htag1 & Hpar1 & Hdir1 & Hpi1 & Hroot1 & Hframe1).
    destruct (IH stop st1 st' err _ Hloop Hopen1 Hbelow1 Hlinked1)
      as (Herr & Hopen' & Hbelow' & Hlinked' & Htag' & Hpar' & Hdir' & Hpi' & Hroot' & Hframe').
    assert (length (Nodes (doc st1))
            = length (Nodes (doc st)) + length (start_tags [t])) as Hlen.
    { rewrite <- (length_fmap tag_of (Nodes (doc st1))), Htag1, length_app.
      by rewrite length_fmap. }
    split; [exact Herr|]. split; [exact Hopen'|]. split; [exact Hbelow'|].
    split; [exact Hlinked'|].
    split; [by rewrite Htag', Htag1, (start_tags_cons t ts), <- app_assoc|].
    split; [by rewrite Hpar', Hpar1, (enclosing_cons _ _ t ts), Hlen, <- app_assoc|].
    split; [by rewrite Hdir', Hdir1, (directives_cons t ts), <- app_assoc|].
    split; [by rewrite Hpi', Hpi1, (last_ProcInst_cons t ts)|].
    split.
    { rewrite Hroot', Hroot1, (start_tags_cons t ts).
      destruct (Root (doc st)); [reflexivity|].
      destruct (start_tags [t]) as [|x xs] eqn:Ht; simpl.
      - by rewrite Hlen, Nat.add_0_r.
      - reflexivity. }
    intros x Hx Hlt. rewrite Hframe'.
    + by apply Hframe1.
    + by apply not_elem_of_stack_after.
    + lia.
Qed.

Lemma linked_nil : linked [].
Proof. split; intros ? ? *; by rewrite lookup_nil. Qed.

Lemma parents_below_nil : parents_below [].
Proof. intros q node r Hq. by rewrite lookup_nil in Hq. Qed.

(** A document that [parse] returns comes from a run of the loop. *)
Lemma parse_returns p d :
  parse TrimSpace p = Returns (Some d, None) ->
  exists st, loop TrimSpace (tokens p) (stop p) init = Returns (st, stop p)
    /\ d = doc st.
Proof.
  unfold parse. destruct (tokens p) as [|t ts] eqn:Hts; [discriminate|].
  destruct (loop TrimSpace (t :: ts) (stop p) init) as [[st err]|] eqn:Hloop;
    [|discriminate].
  destruct (loop_tree _ _ _ _ _ [] Hloop) as (-> & _);
    [constructor | apply parents_below_nil | apply linked_nil |].
  destruct (decide (stop p = io_EOF)); intros [= <-]. eauto.
Qed.


(** *** When the loop panics *)

Lemma step_returns st t :
  (forall name, t = EndElement name -> e st <> None) ->
  exists st', step TrimSpace st t = Returns st'.
Proof.
  intros Hend. destruct t as [name attr|name|data|data|target inst|data]; simpl;
    eauto.
  - destruct (e st) eqn:He; [eauto | by destruct (Hend name)].
  - destruct (e st); eauto.
Qed.

Lemma loop_not_nested ts : forall stop st l,
  open_list (Nodes (doc st)) (e st) l ->
  parents_below (Nodes (doc st)) -> linked (Nodes (doc st)) ->
  nested (length l) ts = false ->
  loop TrimSpace ts stop st = Panics.
Proof.
  induction ts as [|t ts IH]; intros stop st l Hopen Hbelow Hlinked Hnested;
    [discriminate|].
  rewrite loop_cons.
  assert ((exists name, t = EndElement name /\ e st = None)
          \/ (forall name, t = EndElement name -> e st <> None)) as [(name & -> & He)|Hok].
  { destruct t; try (right; discriminate).
    destruct (e st); [right; discriminate | left; eauto]. }
  { simpl. by rewrite He. }
  destruct (step_returns st t Hok) as [st1 Hstep].
  rewrite Hstep.
  destruct (step_tree st t st1 l Hstep Hopen Hbelow Hlinked)
    as (Hopen1 & Hbelow1 & Hlinked1 & _).
  apply (IH stop st1 _ Hopen1 Hbelow1 Hlinked1).
  destruct t as [name attr|name|data|data|target inst|data]; try exact Hnested.
  destruct l as [|p l]; [|exact Hnested].
  destruct (Hok name eq_refl). symmetry. by apply (open_list_head _ _ _ Hopen).
Qed.

(** X6. [parse] panics, dereferencing the nil current node, on exactly those
    token sequences in which an end tag comes while no element is open;
    on all others it returns. *)
Theorem parse_panics_iff (p : Decoder) :
  parse TrimSpace p = Panics <-> nested 0 (tokens p) = false.
Proof.
  split.
  - intros Hpanic. destruct (nested 0 (tokens p)) eqn:Hnested; [|reflexivity].
    destruct (decide (tokens p = [])) as [Hnil|Hne].
    + unfold parse in Hpanic. by rewrite Hnil in Hpanic.
    + destruct (parse_nested TrimSpace p Hnested Hne) as (st & _ & Hr).
      rewrite Hr in Hpanic. by destruct (decide (stop p = io_EOF)).
  - intros Hnested. unfold parse.
    destruct (tokens p) as [|t ts] eqn:Hts; [discriminate|].
    rewrite (loop_not_nested (t :: ts) (stop p) init []);
      [reflexivity | constructor | apply parents_below_nil | apply linked_nil
      | exact Hnested].
Qed.

(** *** The returned document *)

(** X7. In a document that [parse] returns the nodes stand in the order of
    their start tags, one node per start tag, each with the local name of the
    tag and its attributes copied in order; the tokens that follow a start
    tag never change the name or the attributes of its node. *)
Theorem parse_nodes_in_document_order (p : Decoder) (d : Document) :
  parse TrimSpace p = Returns (Some d, None) ->
  tag_of <$> Nodes d = start_tags (tokens p).
Proof.
  intros Hparse. destruct (parse_returns p d Hparse) as (st & Hloop & ->).
  destruct (loop_tree _ _ _ _ _ [] Hloop) as (_ & _ & _ & _ & Htag & _);
    [constructor | apply parents_below_nil | apply linked_nil |].
  exact Htag.
Qed.

(** X8. In a document that [parse] returns the parent of every node is the
    node of the element that encloses its start tag, and nil for a start tag
    at the top level: following [e.Parent] at the end tags agrees with a
    stack of the open elements. *)
Theorem parse_parent_encloses (p : Decoder) (d : Document) :
  parse TrimSpace p = Returns (Some d, None) ->
  Parent <$> Nodes d = enclosing 0 [] (tokens p).
Proof.
  intros Hparse. destruct (parse_returns p d Hparse) as (st & Hloop & ->).
  destruct (loop_tree _ _ _ _ _ [] Hloop) as (_ & _ & _ & _ & _ & Hpar & _);
    [constructor | apply parents_below_nil | apply linked_nil |].
  exact Hpar.
Qed.

(** X9. A document that [parse] returns is a forest: every node was
    allocated after its parent, a node with a parent is listed exactly once
    among the children of that parent, and every child listed by a node is a
    node of the document that names that node as its parent. *)
Theorem parse_links_agree (p : Decoder) (d : Document) :
  parse TrimSpace p = Returns (Some d, None) ->
  parents_below (Nodes d) /\ linked (Nodes d).
Proof.
  intros Hparse. destruct (parse_returns p d Hparse) as (st & Hloop & ->).
  destruct (loop_tree _ _ _ _ _ [] Hloop) as (_ & _ & Hbelow & Hlinked & _);
    [constructor | apply parents_below_nil | apply linked_nil |].
  by split.
Qed.

Lemma enclosing_first ts : forall next,
  enclosing next [] ts !! 0 =
  match start_tags ts with [] => None | _ :: _ => Some None end.
Proof.
  induction ts as [|t ts IH]; intros next; [reflexivity|].
  destruct t; simpl; try apply IH. reflexivity.
Qed.

(** X10. The root of a document that [parse] returns is the node of the
    first start tag, whatever follows it (a later start tag at the top level
    does not replace it), and nil when there is no start tag; the root has
    no parent. *)
Theorem parse_root_is_first (p : Decoder) (d : Document) :
  parse TrimSpace p = Returns (Some d, None) ->
  Root d = match start_tags (tokens p) with [] => None | _ :: _ => Some 0 end
  /\ (forall r, Root d = Some r -> Parent <$> Nodes d !! r = Some None).
Proof.
  intros Hparse.
  destruct (parse_returns p d Hparse) as (st & Hloop & ->).
  destruct (loop_tree _ _ _ _ _ [] Hloop)
    as (_ & _ & _ & _ & _ & Hpar & _ & _ & Hroot & _);
    [constructor | apply parents_below_nil | apply linked_nil |].
  simpl in Hroot. split; [exact Hroot|].
  intros r Hr. rewrite Hroot in Hr.
  rewrite <- list_lookup_fmap, Hpar.
  pose proof (enclosing_first (tokens p) 0) as Hfirst.
  destruct (start_tags (tokens p)) eqn:Hstart; [discriminate|].
  injection Hr as <-. exact Hfirst.
Qed.

(** X11. A document that [parse] returns keeps all directives, in their
    order and each between the brackets of a directive, wherever they stand,
    and of the processing instructions the last one only. *)
Theorem parse_prolog (p : Decoder) (d : Document) :
  parse TrimSpace p = Returns (Some d, None) ->
  Directives d = directives (tokens p)
  /\ ProcInst_ d = last_ProcInst (tokens p) EmptyString.
Proof.
  intros Hparse. destruct (parse_returns p d Hparse) as (st & Hloop & ->).
  destruct (loop_tree _ _ _ _ _ [] Hloop)
    as (_ & _ & _ & _ & _ & _ & Hdir & Hpi & _);
    [constructor | apply parents_below_nil | apply linked_nil |].
  by split.
Qed.


(** *** Nodes that are not open *)

(** X12. The tokens change open nodes only: a node that is in the store
    after the tokens [ts1] and is then neither the current node nor above it
    along the [Parent] pointers is the same, field by field, after any
    further tokens [ts2]. *)
Theorem parse_changes_open_nodes_only ts1 ts2 stop st1 st2 (x : addr) :
  loop TrimSpace ts1 stop init = Returns (st1, stop) ->
  loop TrimSpace ts2 stop st1 = Returns (st2, stop) ->
  x < length (Nodes (doc st1)) ->
  ~ is_open (Nodes (doc st1)) (e st1) x ->
  Nodes (doc st2) !! x = Nodes (doc st1) !! x.
Proof.
  intros Hloop1 Hloop2 Hx Hclosed.
  destruct (loop_tree _ _ _ _ _ [] Hloop1)
    as (_ & [l1 Hopen1] & Hbelow1 & Hlinked1 & _);
    [constructor | apply parents_below_nil | apply linked_nil |].
  destruct (loop_tree _ _ _ _ _ l1 Hloop2 Hopen1 Hbelow1 Hlinked1)
    as (_ & _ & _ & _ & _ & _ & _ & _ & _ & Hframe).
  apply Hframe; [|exact Hx].
  intros Hin. apply Hclosed. by eapply open_list_is_open.
Qed.

Lemma loop_stop ts : forall stop st st' err,
  loop TrimSpace ts stop st = Returns (st', err) -> err = stop.
Proof.
  induction ts as [|t ts IH]; intros stop st st' err Hloop.
  - simpl in Hloop. congruence.
  - rewrite loop_cons in Hloop. destruct (step TrimSpace st t); [eauto | discriminate].
Qed.

Lemma loop_app_returns ts1 ts2 stop st st' :
  loop TrimSpace (ts1 ++ ts2) stop st = Returns (st', stop) ->
  exists st1, loop TrimSpace ts1 stop st = Returns (st1, stop)
    /\ loop TrimSpace ts2 stop st1 = Returns (st', stop).
Proof.
  rewrite loop_app.
  destruct (loop TrimSpace ts1 stop st) as [[st1 err]|] eqn:Hloop1; [|discriminate].
  rewrite (loop_stop _ _ _ _ _ Hloop1). eauto.
Qed.

(** The chain of open elements, with the number of open elements at the
    end. *)
Lemma loop_open_chain_depth ts : forall stop st n top,
  open_chain (Nodes (doc st)) (e st) n top ->
  nested n ts = true ->
  exists st', loop TrimSpace ts stop st = Returns (st', stop)
    /\ open_chain (Nodes (doc st')) (e st') (depth_end n ts) top
    /\ forall p0 node, top = Some p0 ->
         Nodes (doc st) !! p0 = Some node ->
         exists node', Nodes (doc st') !! p0 = Some node'
           /\ kept_with_text node node' (direct_text TrimSpace n ts (Text node)).
Proof.
  induction ts as [|t ts IH]; intros stop st n top Hchain Hnested.
  - exists st. split; [reflexivity|]. split; [exact Hchain|].
    intros p0 node _ Hp0. exists node. by repeat split.
  - apply nested_cons in Hnested as [Hend Hnested].
    destruct (step_open_chain TrimSpace st t n top Hchain Hend)
      as (st1 & Hstep & Hchain1 & Htext1).
    destruct (IH stop st1 _ top Hchain1 Hnested) as (st' & Hloop & Hchain' & Htext').
    exists st'. rewrite loop_cons, Hstep. split; [exact Hloop|].
    split; [exact Hchain'|].
    intros p0 node Htop Hp0.
    destruct (Htext1 p0 node Htop Hp0) as (node1 & Hp1 & Hn1 & Ha1 & Hpar1 & Ht1).
    destruct (Htext' p0 node1 Htop Hp1) as (node' & Hp' & Hn' & Ha' & Hpar' & Ht').
    exists node'. split; [exact Hp'|]. rewrite Ht1 in Ht'. cbn [direct_text].
    repeat split; congruence.
Qed.

(** Along the open elements the addresses go down. *)
Lemma open_list_below nodes e l :
  open_list nodes e l -> parents_below nodes ->
  forall p l', l = p :: l' -> forall x, x ∈ l' -> x < p.
Proof.
  intros Hopen Hbelow. induction Hopen as [|p node l Hp Hrest IH];
    intros p' l' Heq x Hx; [discriminate|].
  inversion Heq; subst p' l'. clear Heq.
  destruct l as [|q l'']; [by apply not_elem_of_nil in Hx|].
  assert (Parent node = Some q) as Hpar by (by inversion Hrest).
  assert (q < p) by eauto.
  apply elem_of_cons in Hx as [->|Hx]; [assumption|].
  specialize (IH q l'' eq_refl x Hx). lia.
Qed.

(** X13. In a document that [parse] returns, the node of an element whose
    end tag was read (its content [body] being balanced) stands at the
    number of its start tag, carries the local name of the tag, and has as
    its text the trimmed content of the last character data directly inside
    the element (the empty text when there is none): nothing that follows
    the end tag changes it. *)
Theorem parse_closed_element_text (p : Decoder) (d : Document)
  pre name attr body name' post :
  tokens p = pre ++ StartElement name attr :: body ++ EndElement name' :: post ->
  nested 0 body = true -> depth_end 0 body = 0 ->
  parse TrimSpace p = Returns (Some d, None) ->
  exists node,
    Nodes d !! length (start_tags pre) = Some node
    /\ NName node = Local name
    /\ Text node = direct_text TrimSpace 0 body EmptyString.
Proof.
  intros Htokens Hbody Hbalanced Hparse.
  destruct (parse_returns p d Hparse) as (stf & Hloop & ->).
  rewrite Htokens in Hloop.
  destruct (loop_app_returns _ _ _ _ _ Hloop) as (st0 & Hloop0 & Hloop0').
  rewrite loop_cons in Hloop0'.
  destruct (step TrimSpace st0 (StartElement name attr)) as [st1|] eqn:Hstep;
    [|discriminate].
  destruct (loop_app_returns _ _ _ _ _ Hloop0') as (st2 & Hloop2 & Hloop2').
  (* the store before the start tag *)
  destruct (loop_tree _ _ _ _ _ [] Hloop0)
    as (_ & [l0 Hopen0] & Hbelow0 & Hlinked0 & Htag0 & _);
    [constructor | apply parents_below_nil | apply linked_nil |].
  assert (length (Nodes (doc st0)) = length (start_tags pre)) as Hel.
  { rewrite <- (length_fmap tag_of), Htag0. reflexivity. }
  rewrite <- Hel. set (el := length (Nodes (doc st0))) in *.
  (* the new node *)
  destruct (step_tree st0 _ st1 l0 Hstep Hopen0 Hbelow0 Hlinked0)
    as (Hopen1 & Hbelow1 & Hlinked1 & _).
  simpl in Hopen1. fold el in Hopen1.
  assert (exists node1, Nodes (doc st1) !! el = Some node1
            /\ NName node1 = Local name /\ Text node1 = EmptyString
            /\ e st1 = Some el) as (node1 & Hnode1 & Hname1 & Htext1 & He1).
  { simpl in Hstep. inversion Hstep; subst st1; clear Hstep. simpl.
    rewrite lookup_after_start.
    - rewrite decide_True by reflexivity. eexists. by repeat split.
    - intros q Hq. destruct (open_list_valid _ _ _ q Hopen0 Hq) as [nq Hnq].
      by apply lookup_lt_Some in Hnq. }
  (* the content *)
  assert (open_chain (Nodes (doc st1)) (e st1) 0 (Some el)) as Hchain1.
  { split; [rewrite He1; constructor | exact Hbelow1 |]. intros ? [= <-]. eauto. }
  destruct (loop_open_chain_depth body (stop p) st1 0 _ Hchain1 Hbody)
    as (st2' & Hloop2'' & Hchain2 & Hkept).
  rewrite Hloop2 in Hloop2''. inversion Hloop2''; subst st2'; clear Hloop2''.
  rewrite Hbalanced in Hchain2.
  destruct (Hkept el node1 eq_refl Hnode1) as (node2 & Hnode2 & Hname2 & _ & _ & Htext2).
  assert (e st2 = Some el) as He2.
  { destruct Hchain2 as [Hpath _ _]. by inversion Hpath. }
  (* the end tag *)
  rewrite loop_cons in Hloop2'. simpl in Hloop2'. rewrite He2, Hnode2 in Hloop2'.
  simpl in Hloop2'.
  destruct (loop_tree _ _ _ _ _ _ Hloop2 Hopen1 Hbelow1 Hlinked1)
    as (_ & [l2 Hopen2] & Hbelow2 & Hlinked2 & _).
  rewrite He2 in Hopen2.
  inversion Hopen2 as [|? node2' l2' Hnode2' Hopen3]; subst.
  rewrite Hnode2 in Hnode2'. inversion Hnode2'; subst node2'; clear Hnode2'.
  (* what follows *)
  destruct (loop_tree _ _ _ _ _ l2' Hloop2')
    as (_ & _ & _ & _ & _ & _ & _ & _ & _ & Hframe); try assumption.
  exists node2. split.
  - rewrite Hframe; [exact Hnode2 | | by apply lookup_lt_Some in Hnode2].
    intros Hin. pose proof (open_list_below _ _ _ Hopen2 Hbelow2 el l2' eq_refl el Hin).
    lia.
  - split; [congruence | by rewrite Htext2, Htext1].
Qed.


(** *** The order of the children *)

Lemma step_document_order st t st' l :
  step TrimSpace st t = Returns st' ->
  open_list (Nodes (doc st)) (e st) l -> linked (Nodes (doc st)) ->
  in_document_order (Nodes (doc st)) -> in_document_order (Nodes (doc st')).
Proof.
  intros Hstep Hopen Hlinked Horder. destruct st as [d e0]. simpl in *.
  destruct t as [name attr|name|data|data|target inst|data]; simpl in Hstep.
  - inversion Hstep; subst st'; clear Hstep. simpl.
    set (node := {| NName := Local name; Attributes := copy_attributes attr;
                    Children := []; Parent := e0; Text := EmptyString |}).
    assert (forall p, e0 = Some p -> p < length (Nodes d)) as Hvalid.
    { intros p Hp. destruct (open_list_valid _ _ _ p Hopen Hp) as [np Hnp].
      by apply lookup_lt_Some in Hnp. }
    pose proof (fun q => lookup_after_start (Nodes d) e0 node q Hvalid) as Hlookup.
    intros p np' i j qi qj Hp Hi Hj Hij.
    destruct (after_start_inv (Nodes d) _ e0 l node Hopen eq_refl Hlookup p np' Hp)
      as [[-> ->]|(np & Hp0 & _ & Hc)].
    + simpl in Hi. by rewrite lookup_nil in Hi.
    + rewrite Hc in Hi, Hj. destruct (decide (e0 = Some p)); [|eauto].
      assert (forall k qk, Children np !! k = Some qk -> qk < length (Nodes d))
        as Hbound.
      { intros k qk Hk. destruct Hlinked as [_ Hdown _].
        destruct (Hdown p np qk Hp0) as (nq & Hnq & _).
        - apply list_elem_of_lookup. eauto.
        - by apply lookup_lt_Some in Hnq. }
      destruct (decide (j < length (Children np))) as [Hj'|Hj'].
      * rewrite lookup_app_l in Hi, Hj by lia. eauto.
      * assert (j = length (Children np)) as ->.
        { apply lookup_lt_Some in Hj. rewrite length_app in Hj. simpl in Hj. lia. }
        rewrite list_lookup_middle in Hj by reflexivity. inversion Hj; subst qj.
        rewrite lookup_app_l in Hi by lia. eauto.
  - destruct e0; inversion Hstep; subst st'. exact Horder.
  - destruct e0 as [p0|]; inversion Hstep; subst st'; simpl; [|exact Horder].
    intros p np' i j qi qj Hp Hi Hj Hij.
    destruct (lookup_alter_kept (set_text (TrimSpace data)) (Nodes d) p0 p np')
      as (np & Hp0 & _ & Hc); try done.
    rewrite Hc in Hi, Hj. eauto.
  - inversion Hstep; subst st'. exact Horder.
  - inversion Hstep; subst st'. exact Horder.
  - inversion Hstep; subst st'. exact Horder.
Qed.

Lemma loop_document_order ts : forall stop st st' err l,
  loop TrimSpace ts stop st = Returns (st', err) ->
  open_list (Nodes (doc st)) (e st) l ->
  parents_below (Nodes (doc st)) -> linked (Nodes (doc st)) ->
  in_document_order (Nodes (doc st)) -> in_document_order (Nodes (doc st')).
Proof.
  induction ts as [|t ts IH]; intros stop st st' err l Hloop Hopen Hbelow Hlinked Horder.
  - simpl in Hloop. by inversion Hloop; subst.
  - rewrite loop_cons in Hloop.
    destruct (step TrimSpace st t) as [st1|] eqn:Hstep; [|discriminate].
    destruct (step_tree st t st1 l Hstep Hopen Hbelow Hlinked)
      as (Hopen1 & Hbelow1 & Hlinked1 & _).
    eapply IH; eauto using step_document_order.
Qed.

(** X14. In a document that [parse] returns every node lists its children
    in the order of their start tags: a child listed later was allocated
    later. *)
Theorem parse_children_in_document_order (p : Decoder) (d : Document) :
  parse TrimSpace p = Returns (Some d, None) -> in_document_order (Nodes d).
Proof.
  intros Hparse. destruct (parse_returns p d Hparse) as (st & Hloop & ->).
  eapply (loop_document_order _ _ _ _ _ [] Hloop);
    [constructor | apply parents_below_nil | apply linked_nil |].
  intros q nq ? ? ? ? Hq. simpl in Hq. by rewrite lookup_nil in Hq.
Qed.

(** *** Comments *)

(** X15. Comments are ignored: leaving the comments out of a token sequence
    changes nothing in what the loop does, from any state, be it the state
    and error it ends with or the panic. The first read apart, [parse]
    gives the same result: with at least one token that is not a comment the
    result for the input without its comments is the result for the
    input. *)
Theorem parse_ignores_comments :
  (forall ts stop st,
     loop TrimSpace (List.filter not_comment ts) stop st
     = loop TrimSpace ts stop st)
  /\ (forall p : Decoder,
        List.filter not_comment (tokens p) <> [] ->
        parse TrimSpace {| tokens := List.filter not_comment (tokens p);
                           stop := stop p |}
        = parse TrimSpace p).
Proof.
  assert (forall ts stop st,
            loop TrimSpace (List.filter not_comment ts) stop st
            = loop TrimSpace ts stop st) as Hloop.
  { induction ts as [|t ts IH]; intros stop st; [reflexivity|].
    destruct t; simpl; try (destruct (step TrimSpace st _); [apply IH | reflexivity]);
      try apply IH.
    - destruct (e st); [apply IH | reflexivity].
    - destruct (e st); apply IH. }
  split; [exact Hloop|].
  intros p Hne. unfold parse. simpl.
  destruct (List.filter not_comment (tokens p)) as [|t ts] eqn:Hfilter; [done|].
  destruct (tokens p) as [|t' ts'] eqn:Htokens; [discriminate|].
  rewrite <- Hfilter, Hloop. reflexivity.
Qed.

End ParserTree.

(** ** Concrete runs, continued *)

Section MoreRuns.

Import parse.

Local Open Scope string_scope.

Lemma parse_nodes_in_document_order_witness :
  parse TrimSpaceASCII sample_input = Returns (Some sample_document, None)
  /\ tag_of <$> Nodes sample_document
     = [("a", [{| AName := "id"; AValue := "1" |}]); ("b", [])].
Proof.
  split; [reflexivity|].
  apply (parse_nodes_in_document_order TrimSpaceASCII sample_input sample_document).
  reflexivity.
Defined.

Lemma parse_parent_encloses_witness :
  parse TrimSpaceASCII sample_input = Returns (Some sample_document, None)
  /\ Parent <$> Nodes sample_document = [None; Some 0%nat].
Proof.
  split; [reflexivity|].
  apply (parse_parent_encloses TrimSpaceASCII sample_input sample_document).
  reflexivity.
Defined.

Lemma parse_links_agree_witness :
  parse TrimSpaceASCII sample_input = Returns (Some sample_document, None)
  /\ parents_below (Nodes sample_document) /\ linked (Nodes sample_document).
Proof.
  split; [reflexivity|].
  apply (parse_links_agree TrimSpaceASCII sample_input sample_document).
  reflexivity.
Defined.

Lemma parse_root_is_first_witness :
  parse TrimSpaceASCII sample_input = Returns (Some sample_document, None)
  /\ Root sample_document = Some 0%nat.
Proof.
  split; [reflexivity|].
  apply (parse_root_is_first TrimSpaceASCII sample_input sample_document).
  reflexivity.
Defined.

Lemma parse_prolog_witness :
  parse TrimSpaceASCII sample_input = Returns (Some sample_document, None)
  /\ Directives sample_document = ["<!DOCTYPE a>"]
  /\ ProcInst_ sample_document = "<?xml version=1.0?>".
Proof.
  split; [reflexivity|].
  apply (parse_prolog TrimSpaceASCII sample_input sample_document).
  reflexivity.
Defined.

Lemma parse_closed_element_text_witness :
  parse TrimSpaceASCII sample_input = Returns (Some sample_document, None)
  /\ exists node,
       Nodes sample_document !! 0%nat = Some node
       /\ NName node = "a"
       /\ Text node = "z".
Proof.
  split; [reflexivity|].
  apply (parse_closed_element_text TrimSpaceASCII sample_input sample_document
           [ProcInst "xml" "version=1.0"; Directive "DOCTYPE a"]
           a_tag
           [{| AttrName := {| Space := EmptyString; Local := "id" |};
               AttrValue := "1" |}]
           [CharData " x "; StartElement b_tag []; CharData "y";
            EndElement b_tag; CharData " z "]
           a_tag [Comment "end"]); reflexivity.
Defined.

(** The node of [b], closed, while [a] is still open. *)
Lemma parse_changes_open_nodes_only_witness :
  Nodes (doc sample_state_a_closed) !! 1%nat
  = Nodes (doc sample_state_b_closed) !! 1%nat.
Proof.
  apply (parse_changes_open_nodes_only TrimSpaceASCII
           [StartElement a_tag []; StartElement b_tag []; EndElement b_tag]
           [CharData " z "; EndElement a_tag] io_EOF
           sample_state_b_closed sample_state_a_closed 1%nat);
    [reflexivity | reflexivity | simpl; lia |].
  intros [n Hn]. inversion Hn as [|? node ? ? Hnode Hrest]; subst.
  inversion Hnode; subst. inversion Hrest.
Defined.

Lemma parse_children_in_document_order_witness :
  parse TrimSpaceASCII sample_input = Returns (Some sample_document, None)
  /\ in_document_order (Nodes sample_document).
Proof.
  split; [reflexivity|].
  apply (parse_children_in_document_order TrimSpaceASCII sample_input
           sample_document).
  reflexivity.
Defined.

Lemma parse_ignores_comments_witness :
  parse TrimSpaceASCII
    {| tokens := List.filter not_comment (tokens sample_input);
       stop := stop sample_input |}
  = parse TrimSpaceASCII sample_input.
Proof.
  apply (proj2 (parse_ignores_comments TrimSpaceASCII) sample_input).
  discriminate.
Defined.

End MoreRuns.
